(** * A shallow embedding of the TTL + LRU cache of challenge 3
    (src/assignments/hw1/challenge-3-cache/cache.ts, types.ts and adapters).

    Modelling choices, all taken from the TypeScript source:
    - [Map<K, CacheEntry<V>>] is an insertion-ordered association list
      with unique keys; [Map] compares keys with SameValueZero, modelled
      as Leibniz equality on (normalised) JavaScript values.
    - [Array.prototype.indexOf] compares with [===]; on keys it agrees with
      SameValueZero except that a NaN key is not [===] to itself.  The
      predicate [is_nan] tells which keys are NaN.
    - Timestamps are [Z]; every operation reads [Date.now()] once, given
      as its [now] argument.
    - The storage adapters: the no-op [MemoryAdapter] and the persisted
      adapters (FileAdapter, LocalStorageAdapter), which keep the
      serialised [Array.from(data.entries())] or nothing (file or key absent),
      with the losses of JSON and the failures of the medium that their
      [try]/[catch] swallows.
    - Every call the cache makes on its adapter is recorded in a log. *)

From Stdlib Require Import ZArith List Bool Lia Permutation Sorted.
Import ListNotations.
Open Scope Z_scope.
Set Default Proof Using "Type".

(** [CacheEntry<V>] of types.ts. *)
Record CacheEntry (V : Type) := mkEntry {
  value : V;
  expiresAt : option Z;
  lastAccessed : Z
}.
Arguments mkEntry {V} _ _ _.
Arguments value {V} _.
Arguments expiresAt {V} _.
Arguments lastAccessed {V} _.

(** [CacheConfig] after the defaults of the constructor have been applied
    (the [storage] field lives in the cache state). *)
Record CacheConfig := mkConfig {
  maxSize : Z;
  defaultTTL : option Z;
  persistOnChange : bool
}.

(** [new Cache()] : [maxSize ?? 100], [defaultTTL ?? null],
    [persistOnChange ?? true]. *)
Definition default_config : CacheConfig := mkConfig 100 None true.

(** How the medium behind a persisted adapter answers: a write succeeds,
    is refused before anything changes (a read-only file, a full
    localStorage quota), or fails after the file was truncated (a full
    disk); an unlink succeeds or is refused (a read-only directory). *)
Inductive write_result := WriteOk | WriteRefused | WriteTruncated.

Record medium := mkMedium {
  on_write : write_result;
  unlink_ok : bool
}.

Section Cache.

Context {K V : Type}.
Context (K_eq_dec : forall x y : K, {x = y} + {x <> y}).
Context (is_nan : K -> bool).

(** [x === y] on keys. *)
Definition strict_equals (x y : K) : bool :=
  if K_eq_dec x y then negb (is_nan x) else false.

Definition map_t := list (K * CacheEntry V).

(** [Map.prototype.get]. *)
Fixpoint map_get (k : K) (m : map_t) : option (CacheEntry V) :=
  match m with
  | [] => None
  | (k', e) :: m' => if K_eq_dec k k' then Some e else map_get k m'
  end.

(** [Map.prototype.has]. *)
Definition map_has (k : K) (m : map_t) : bool :=
  match map_get k m with Some _ => true | None => false end.

(** [Map.prototype.set]: replaces in place, or appends a new key. *)
Fixpoint map_set (k : K) (e : CacheEntry V) (m : map_t) : map_t :=
  match m with
  | [] => [(k, e)]
  | (k', e') :: m' =>
      if K_eq_dec k k' then (k', e) :: m' else (k', e') :: map_set k e m'
  end.

(** [Map.prototype.delete]. *)
Fixpoint map_delete (k : K) (m : map_t) : map_t :=
  match m with
  | [] => []
  | (k', e') :: m' => if K_eq_dec k k' then m' else (k', e') :: map_delete k m'
  end.

(** [entry.lastAccessed = now] on the entry object stored under [k]. *)
Fixpoint map_touch (k : K) (now : Z) (m : map_t) : map_t :=
  match m with
  | [] => []
  | (k', e) :: m' =>
      if K_eq_dec k k'
      then (k', mkEntry (value e) (expiresAt e) now) :: m'
      else (k', e) :: map_touch k now m'
  end.

(** [new Map(entries)]: successive [set]s. *)
Definition map_of_entries (l : list (K * CacheEntry V)) : map_t :=
  fold_left (fun m ke => map_set (fst ke) (snd ke) m) l [].

(** [Array.prototype.indexOf] ([None] is [-1]). *)
Fixpoint index_of (k : K) (l : list K) : option nat :=
  match l with
  | [] => None
  | x :: l' => if strict_equals k x then Some O else option_map S (index_of k l')
  end.

(** [Array.prototype.splice(i, 1)]. *)
Fixpoint remove_at (i : nat) (l : list K) : list K :=
  match l, i with
  | [], _ => []
  | _ :: l', O => l'
  | x :: l', S i' => x :: remove_at i' l'
  end.

(** The storage adapters: the no-op [MemoryAdapter], and a persisted
    adapter (FileAdapter; LocalStorageAdapter alike) given by
    - [json]: [JSON.parse(JSON.stringify(pair))] on one [(key, entry)] pair
      of [Array.from(data.entries())]: [None] when [JSON.stringify] throws
      (a BigInt), otherwise the pair JSON gives back (a Date becomes a
      string, NaN becomes null);
    - [md]: how the medium answers writes and unlinks;
    - [stored]: the entries of the stored array, [None] when the file or
      key is absent or does not parse. *)
Inductive adapter :=
| MemoryAdapter
| PersistedAdapter (json : K * CacheEntry V -> option (K * CacheEntry V)) (md : medium)
                   (stored : option (list (K * CacheEntry V))).

Inductive adapter_call :=
| CallLoad
| CallSave (snapshot : list (K * CacheEntry V))
| CallClear.

(** [JSON.stringify(Array.from(data.entries()))] read back by
    [JSON.parse]: [None] when some pair cannot be serialised. *)
Fixpoint json_entries (json : K * CacheEntry V -> option (K * CacheEntry V))
  (l : list (K * CacheEntry V)) : option (list (K * CacheEntry V)) :=
  match l with
  | [] => Some []
  | ke :: l' =>
      match json ke, json_entries json l' with
      | Some ke', Some l'' => Some (ke' :: l'')
      | _, _ => None
      end
  end.

(** [load()]: empty for the memory adapter, and for absent or unparsable
    storage (the [catch] returns [new Map()]); [new Map(parsed)] otherwise. *)
Definition adapter_load (a : adapter) : map_t :=
  match a with
  | MemoryAdapter => []
  | PersistedAdapter _ _ None => []
  | PersistedAdapter _ _ (Some l) => map_of_entries l
  end.

(** [save(data)]: [JSON.stringify] then [writeFile]; every exception is
    swallowed. When [JSON.stringify] throws, or the medium refuses the
    write, the storage is left as it was; a write that fails after
    truncating the file leaves a file that does not parse. *)
Definition adapter_save (m : map_t) (a : adapter) : adapter :=
  match a with
  | MemoryAdapter => MemoryAdapter
  | PersistedAdapter json md s =>
      match json_entries json m with
      | None => a
      | Some l =>
          match on_write md with
          | WriteOk => PersistedAdapter json md (Some l)
          | WriteRefused => a
          | WriteTruncated => PersistedAdapter json md None
          end
      end
  end.

(** [clear()]: [unlink]; a refused unlink is swallowed and leaves the file. *)
Definition adapter_clear (a : adapter) : adapter :=
  match a with
  | MemoryAdapter => MemoryAdapter
  | PersistedAdapter json md s => if unlink_ok md then PersistedAdapter json md None else a
  end.

(** A persisted adapter whose medium takes every write and unlink, for
    keys and values that JSON gives back unchanged (string keys, integer
    or string values). *)
Definition SnapshotAdapter (stored : option (list (K * CacheEntry V))) : adapter :=
  PersistedAdapter (fun ke => Some ke) (mkMedium WriteOk true) stored.

(** The fields of a [Cache] instance that change. *)
Record CacheState := mkState {
  data : map_t;
  accessOrder : list K;
  initialized : bool;
  storage : adapter;
  calls : list adapter_call
}.

(** [new Cache({storage})]. *)
Definition fresh (a : adapter) : CacheState := mkState [] [] false a [].

Definition with_data_order (d : map_t) (o : list K) (st : CacheState) : CacheState :=
  mkState d o (initialized st) (storage st) (calls st).

(** The filter of [init]: [entry.expiresAt === null || entry.expiresAt > now]. *)
Definition live_at (now : Z) (e : CacheEntry V) : bool :=
  match expiresAt e with None => true | Some x => x >? now end.

(** The [for (const [key, entry] of loaded)] loop of [init]. *)
Definition hydrate_loop (now : Z) (loaded : map_t) (d : map_t) (o : list K)
  : map_t * list K :=
  fold_left
    (fun acc ke =>
       if live_at now (snd ke)
       then (map_set (fst ke) (snd ke) (fst acc), snd acc ++ [fst ke])
       else acc)
    loaded (d, o).

(** The key of the comparator of [init]: [this.data.get(k)?.lastAccessed ?? 0]. *)
Definition la_of (d : map_t) (k : K) : Z :=
  match map_get k d with Some e => lastAccessed e | None => 0 end.

(** [Array.prototype.sort] with comparator [f a - f b]: the sort is stable
    (ES2019), so its result is the stable ascending sort, computed here
    by insertion. *)
Fixpoint insert_by (f : K -> Z) (x : K) (l : list K) : list K :=
  match l with
  | [] => [x]
  | y :: l' => if f x <? f y then x :: l else y :: insert_by f x l'
  end.

Definition sort_by (f : K -> Z) (l : list K) : list K :=
  fold_left (fun acc x => insert_by f x acc) l [].

(** The body of the [initPromise]: load, filter, sort, mark initialised. *)
Definition hydrate (now : Z) (loaded : map_t) (st : CacheState) : CacheState :=
  let '(d, o) := hydrate_loop now loaded (data st) (accessOrder st) in
  mkState d (sort_by (la_of d) o) true (storage st) (calls st).

(** [init()], run to completion (sequential use). *)
Definition init (now : Z) (st : CacheState) : CacheState :=
  if initialized st then st
  else hydrate now (adapter_load (storage st))
         (mkState (data st) (accessOrder st) false (storage st)
                  (calls st ++ [CallLoad])).

(** [touch(key)]. *)
Definition touch (k : K) (now : Z) (st : CacheState) : CacheState :=
  let o := match index_of k (accessOrder st) with
           | Some i => remove_at i (accessOrder st)
           | None => accessOrder st
           end in
  with_data_order (map_touch k now (data st)) (o ++ [k]) st.

(** [evictLRU()]. *)
Definition evictLRU (st : CacheState) : CacheState :=
  match accessOrder st with
  | [] => st
  | lru :: rest => with_data_order (map_delete lru (data st)) rest st
  end.

(** [isExpired(entry)]. *)
Definition isExpired (e : CacheEntry V) (now : Z) : bool :=
  match expiresAt e with None => false | Some x => now >? x end.

(** [storage.save(this.data)]. *)
Definition save (st : CacheState) : CacheState :=
  mkState (data st) (accessOrder st) (initialized st)
          (adapter_save (data st) (storage st)) (calls st ++ [CallSave (data st)]).

(** [persist()]. *)
Definition persist (cfg : CacheConfig) (st : CacheState) : CacheState :=
  if persistOnChange cfg then save st else st.

(** [while (this.data.size >= this.maxSize) this.evictLRU();]
    Each round either shortens [accessOrder] or finds it empty, in which
    case [evictLRU] changes nothing and the loop never ends; so with
    [fuel = 1 + |accessOrder|] the answer [None] means exactly that the
    JavaScript loop diverges. *)
Fixpoint evict_while (cfg : CacheConfig) (fuel : nat) (st : CacheState)
  : option CacheState :=
  if Z.of_nat (length (data st)) >=? maxSize cfg then
    match fuel with
    | O => None
    | S f => evict_while cfg f (evictLRU st)
    end
  else Some st.

(** [set(key, value, ttl?)]. *)
Definition set (cfg : CacheConfig) (k : K) (v : V) (ttl : option Z) (now : Z)
  (st0 : CacheState) : option CacheState :=
  let st := init now st0 in
  let ttlMs := match ttl with Some t => Some t | None => defaultTTL cfg end in
  let exp := match ttlMs with Some t => Some (now + t) | None => None end in
  let e := mkEntry v exp now in
  if map_has k (data st) then
    Some (persist cfg (touch k now (with_data_order (map_set k e (data st))
                                                    (accessOrder st) st)))
  else
    match evict_while cfg (S (length (accessOrder st))) st with
    | None => None
    | Some st' =>
        Some (persist cfg (with_data_order (map_set k e (data st'))
                                           (accessOrder st' ++ [k]) st'))
    end.

(** The part of [delete(key)] after [await this.init()]. *)
Definition delete_body (cfg : CacheConfig) (k : K) (st : CacheState) : CacheState :=
  let o := match index_of k (accessOrder st) with
           | Some i => remove_at i (accessOrder st)
           | None => accessOrder st
           end in
  persist cfg (with_data_order (map_delete k (data st)) o st).

(** [delete(key)]. *)
Definition delete (cfg : CacheConfig) (k : K) (now : Z) (st : CacheState) : CacheState :=
  delete_body cfg k (init now st).

(** [get(key)]. *)
Definition get (cfg : CacheConfig) (k : K) (now : Z) (st0 : CacheState)
  : CacheState * option V :=
  let st := init now st0 in
  match map_get k (data st) with
  | None => (st, None)
  | Some e =>
      if isExpired e now then (delete cfg k now st, None)
      else (persist cfg (touch k now st), Some (value e))
  end.

(** [has(key)]. *)
Definition has (cfg : CacheConfig) (k : K) (now : Z) (st0 : CacheState)
  : CacheState * bool :=
  let st := init now st0 in
  match map_get k (data st) with
  | None => (st, false)
  | Some e => if isExpired e now then (delete cfg k now st, false) else (st, true)
  end.

(** [clear()]. *)
Definition clear (now : Z) (st0 : CacheState) : CacheState :=
  let st := init now st0 in
  mkState [] [] (initialized st) (adapter_clear (storage st)) (calls st ++ [CallClear]).

(** [size()] and [keys()]: synchronous, no [init]. *)
Definition size (st : CacheState) : nat := length (data st).
Definition keys (st : CacheState) : list K := map fst (data st).

(** The public operations of the class. *)
Inductive op :=
| OpGet (k : K) (now : Z)
| OpSet (k : K) (v : V) (ttl : option Z) (now : Z)
| OpDelete (k : K) (now : Z)
| OpHas (k : K) (now : Z)
| OpClear (now : Z)
| OpSize
| OpKeys
| OpSave.

Inductive result :=
| RValue (r : option V)
| RBool (b : bool)
| RUnit
| RSize (n : nat)
| RKeys (ks : list K).

(** One operation run to completion; [None] only when [set]'s eviction
    loop diverges. *)
Definition step (cfg : CacheConfig) (st : CacheState) (o : op)
  : option (CacheState * result) :=
  match o with
  | OpGet k now => let '(st', r) := get cfg k now st in Some (st', RValue r)
  | OpSet k v ttl now =>
      match set cfg k v ttl now st with
      | Some st' => Some (st', RUnit)
      | None => None
      end
  | OpDelete k now => Some (delete cfg k now st, RUnit)
  | OpHas k now => let '(st', b) := has cfg k now st in Some (st', RBool b)
  | OpClear now => Some (clear now st, RUnit)
  | OpSize => Some (st, RSize (size st))
  | OpKeys => Some (st, RKeys (keys st))
  | OpSave => Some (save st, RUnit)
  end.

(** States reachable from [st0] by completed operations. *)
Inductive reachable (cfg : CacheConfig) (st0 : CacheState) : CacheState -> Prop :=
| reach_here : reachable cfg st0 st0
| reach_step st o st' r :
    reachable cfg st0 st -> step cfg st o = Some (st', r) -> reachable cfg st0 st'.

(** A sequence of [set] calls. *)
Definition run_sets (cfg : CacheConfig) (st : CacheState)
  (ss : list (K * V * option Z * Z)) : option CacheState :=
  fold_left
    (fun ost s =>
       match ost with
       | Some st' => let '(k, v, ttl, now) := s in set cfg k v ttl now st'
       | None => None
       end)
    ss (Some st).

End Cache.

(** ** Cooperative scheduling of [init()]

    An [async] method runs synchronously up to its first [await]; for the
    public methods that is [await this.init()].  The synchronous prefix of
    [init()] either returns at once ([initialized]), returns the cached
    [initPromise], or creates it, which calls [storage.load()] right away.
    The rest of the promise (filter, sort, [initialized = true]) runs when
    the load resolves; a method awaiting a promise resumes only once that
    promise has resolved, and then runs its body to completion. *)
Section Async.

Context {K V : Type}.
Context (K_eq_dec : forall x y : K, {x = y} + {x <> y}).
Context (is_nan : K -> bool).

Inductive awaited := AwaitResolved | AwaitInit.

(** [this.initPromise]: [null], pending on a load, or resolved. *)
Inductive init_promise :=
| NoPromise
| PendingLoad (loaded : @map_t K V)
| Resolved.

Record AsyncState := mkAsync {
  cache : @CacheState K V;
  initPromise : init_promise;
  waiting : list (@op K V * awaited);
  completed : list (@op K V * @result K V * bool)
    (* each finished call, its result, and [initialized] when it finished *)
}.

Definition async_start (ad : @adapter K V) : AsyncState :=
  mkAsync (fresh ad) NoPromise [] [].

(** The methods declared [async] (those that [await this.init()]). *)
Definition is_async (o : @op K V) : bool :=
  match o with OpSize | OpKeys | OpSave => false | _ => true end.

(** The synchronous prefix of [init()]. *)
Definition init_prefix (a : AsyncState) : AsyncState * awaited :=
  if initialized (cache a) then (a, AwaitResolved)
  else match initPromise a with
       | NoPromise =>
           let c := cache a in
           (mkAsync (mkState (data c) (accessOrder c) (initialized c) (storage c)
                             (calls c ++ [CallLoad]))
                    (PendingLoad (adapter_load K_eq_dec (storage c)))
                    (waiting a) (completed a),
            AwaitInit)
       | _ => (a, AwaitInit)
       end.

Definition promise_resolved (w : awaited) (p : init_promise) : bool :=
  match w, p with
  | AwaitResolved, _ => true
  | AwaitInit, Resolved => true
  | AwaitInit, _ => false
  end.

Inductive event :=
| EvCall (o : @op K V)     (* a caller invokes a method *)
| EvLoadDone (now : Z)     (* the pending [storage.load()] resolves *)
| EvResume (i : nat).      (* the [i]-th suspended call resumes *)

Definition async_step (cfg : CacheConfig) (a : AsyncState) (ev : event)
  : option AsyncState :=
  match ev with
  | EvCall o =>
      if is_async o then
        let '(a', w) := init_prefix a in
        Some (mkAsync (cache a') (initPromise a') (waiting a' ++ [(o, w)])
                      (completed a'))
      else
        match step K_eq_dec is_nan cfg (cache a) o with
        | Some (c', r) =>
            Some (mkAsync c' (initPromise a) (waiting a)
                          (completed a ++ [(o, r, initialized (cache a))]))
        | None => None
        end
  | EvLoadDone now =>
      match initPromise a with
      | PendingLoad loaded =>
          Some (mkAsync (hydrate K_eq_dec now loaded (cache a)) Resolved
                        (waiting a) (completed a))
      | _ => None
      end
  | EvResume i =>
      match nth_error (waiting a) i with
      | Some (o, w) =>
          if promise_resolved w (initPromise a) then
            match step K_eq_dec is_nan cfg (cache a) o with
            | Some (c', r) =>
                Some (mkAsync c' (initPromise a)
                              (firstn i (waiting a) ++ skipn (S i) (waiting a))
                              (completed a ++ [(o, r, initialized (cache a))]))
            | None => None
            end
          else None
      | None => None
      end
  end.

Inductive async_reachable (cfg : CacheConfig) (ad : @adapter K V)
  : AsyncState -> Prop :=
| areach_start : async_reachable cfg ad (async_start ad)
| areach_step a ev a' :
    async_reachable cfg ad a -> async_step cfg a ev = Some a' ->
    async_reachable cfg ad a'.

Definition is_load (c : @adapter_call K V) : bool :=
  match c with CallLoad => true | _ => false end.

(** How many times [storage.load()] has been called. *)
Definition load_count (l : list (@adapter_call K V)) : nat :=
  length (filter is_load l).

End Async.

(** ** Invariants of the cache state *)
Section Invariants.

Context {K V : Type}.
Context (K_eq_dec : forall x y : K, {x = y} + {x <> y}).
Context (is_nan : K -> bool).

(** The keys of [accessOrder] that are not NaN. *)
Definition nonnan (l : list K) : list K := filter (fun k => negb (is_nan k)) l.

(** What every completed operation preserves: the Map has unique keys,
    each of them is in [accessOrder], each non-NaN key of [accessOrder]
    is in the Map, and no non-NaN key is in [accessOrder] twice. *)
Definition wf_state (st : @CacheState K V) : Prop :=
  NoDup (map fst (data st)) /\
  (forall k, In k (map fst (data st)) -> In k (accessOrder st)) /\
  (forall k, In k (accessOrder st) -> is_nan k = false -> In k (map fst (data st))) /\
  NoDup (nonnan (accessOrder st)).

(** Before [init()] has run, nothing has been stored in memory. *)
Definition inv (st : @CacheState K V) : Prop :=
  wf_state st /\ (initialized st = false -> data st = [] /\ accessOrder st = []).

(** The bijection between the Map and [accessOrder] that the spec states. *)
Definition bijection (st : @CacheState K V) : Prop :=
  NoDup (accessOrder st) /\
  (forall k, In k (map fst (data st)) <-> In k (accessOrder st)).

(** Neither [initialized] nor the number of loads changes. *)
Definition same_loads (st st' : @CacheState K V) : Prop :=
  initialized st' = initialized st /\ load_count (calls st') = load_count (calls st).

(** What the promise [initPromise] tells about the cache: before it exists
    nothing has been loaded and no call waits; while the load is pending,
    exactly one load was issued and every waiting call awaits it; once it
    has resolved, the cache is initialised. No [async] call completes
    before that, and every one that completes afterwards saw the cache
    initialised. *)
Definition async_inv (a : @AsyncState K V) : Prop :=
  match initPromise a with
  | NoPromise =>
      initialized (cache a) = false /\ load_count (calls (cache a)) = 0%nat /\ waiting a = [] /\
      (forall o r b, In (o, r, b) (completed a) -> is_async o = false)
  | PendingLoad _ =>
      initialized (cache a) = false /\ load_count (calls (cache a)) = 1%nat /\
      (forall o w, In (o, w) (waiting a) -> w = AwaitInit) /\
      (forall o r b, In (o, r, b) (completed a) -> is_async o = false)
  | Resolved =>
      initialized (cache a) = true /\ load_count (calls (cache a)) = 1%nat /\
      (forall o r b, In (o, r, b) (completed a) -> is_async o = true -> b = true)
  end.

End Invariants.

(** Keys of a concrete instance: JavaScript strings and numbers. *)
Inductive jskey := JStr (s : nat) | JNum (z : Z) | JNaN.

Definition jskey_eq_dec (x y : jskey) : {x = y} + {x <> y}.
Proof. decide equality; [apply Nat.eq_dec | apply Z.eq_dec]. Defined.

Definition jskey_is_nan (k : jskey) : bool :=
  match k with JNaN => true | _ => false end.

Abbreviation jset := (set jskey_eq_dec jskey_is_nan).
Abbreviation jget := (get jskey_eq_dec jskey_is_nan).
Abbreviation jdelete := (delete jskey_eq_dec jskey_is_nan).

Definition cfg3 : CacheConfig := mkConfig 3 None false.

(** A capacity of one, persisting on change. *)
Definition cfg1 : CacheConfig := mkConfig 1 None true.

(** A stored snapshot of two entries, neither with an expiry. *)
Definition snap2 : @adapter jskey Z :=
  SnapshotAdapter (Some [(JStr 0, mkEntry 10 None 0); (JStr 1, mkEntry 11 None 0)]).

(** A stored snapshot of one entry. *)
Definition snap1 : @adapter jskey Z :=
  SnapshotAdapter (Some [(JStr 0, mkEntry 10 None 0)]).

(** The key of an argument tuple of [set]. *)
Definition set_key {K V : Type} (s : K * V * option Z * Z) : K :=
  let '(k, _, _, _) := s in k.

(** A sequence of operations, each run to completion. *)
Definition run_ops {K V : Type} (K_eq_dec : forall x y : K, {x = y} + {x <> y})
  (is_nan : K -> bool) (cfg : CacheConfig) (st : @CacheState K V) (ops : list (@op K V))
  : option (@CacheState K V) :=
  fold_left
    (fun ost o =>
       match ost with
       | Some s => option_map fst (step K_eq_dec is_nan cfg s o)
       | None => None
       end)
    ops (Some st).

(** A schedule of events of the cooperative model. *)
Definition run_events {K V : Type} (K_eq_dec : forall x y : K, {x = y} + {x <> y})
  (is_nan : K -> bool) (cfg : CacheConfig) (a : @AsyncState K V) (evs : list (@event K V))
  : option (@AsyncState K V) :=
  fold_left
    (fun oa ev =>
       match oa with
       | Some a' => async_step K_eq_dec is_nan cfg a' ev
       | None => None
       end)
    evs (Some a).

(** Two calls of [get] issued together on a fresh cache over [snap1],
    the load resolving, then both calls resuming. *)
Definition c3_schedule : list (@event jskey Z) :=
  [EvCall (OpGet (JStr 0) 5); EvCall (OpGet (JStr 1) 5); EvLoadDone 5;
   EvResume 1; EvResume 0].

Definition c3_state : @AsyncState jskey Z :=
  match run_events jskey_eq_dec jskey_is_nan default_config (async_start snap1) c3_schedule with
  | Some a => a
  | None => async_start snap1
  end.

(** [set a=1, b=2, c=3] at times 0, 1, 2. *)
Definition c5_sets : list (jskey * Z * option Z * Z) :=
  [(JStr 0, 1, None, 0); (JStr 1, 2, None, 1); (JStr 2, 3, None, 2)].

(** Two entries written through a persisting cache over an absent file on a writable disk. *)
Definition c9_state : @CacheState jskey Z :=
  match run_sets jskey_eq_dec jskey_is_nan default_config (fresh (SnapshotAdapter None))
          [(JStr 0, 1, None, 0); (JStr 1, 2, Some 100, 1)] with
  | Some st => st
  | None => fresh (SnapshotAdapter None)
  end.

(** Cached values as JavaScript has them: numbers, BigInts and Dates. *)
Inductive jsval := VNum (z : Z) | VBigInt (z : Z) | VDate (t : Z) | VDateString (t : Z).

(** [JSON.parse(JSON.stringify(pair))] on string keys: a BigInt makes
    [JSON.stringify] throw, a Date comes back as its ISO string. *)
Definition jsval_json (ke : jskey * CacheEntry jsval) : option (jskey * CacheEntry jsval) :=
  let '(k, e) := ke in
  match value e with
  | VBigInt _ => None
  | VDate t => Some (k, mkEntry (VDateString t) (expiresAt e) (lastAccessed e))
  | _ => Some ke
  end.

(** A file on a writable disk, holding [a = 1]. *)
Definition file_a1 : @adapter jskey jsval :=
  PersistedAdapter jsval_json (mkMedium WriteOk true) (Some [(JStr 0, mkEntry (VNum 1) None 0)]).

(** ** Lemmas on the Map, the access-order array and hydration *)
Section MapLemmas.

Context {K V : Type}.
Context (K_eq_dec : forall x y : K, {x = y} + {x <> y}).

Local Abbreviation map_t := (@map_t K V).
Local Abbreviation map_get := (map_get K_eq_dec).
Local Abbreviation map_set := (map_set K_eq_dec).
Local Abbreviation map_delete := (map_delete K_eq_dec).
Local Abbreviation map_touch := (map_touch K_eq_dec).

Ltac eqcase a b := destruct (K_eq_dec a b) as [Heq|Hne]; [subst b|].

Lemma map_get_None_iff (k : K) (m : map_t) :
  map_get k m = None <-> ~ In k (map fst m).
Proof.
  induction m as [|[k' e'] m IH]; simpl; [tauto|].
  eqcase k k'; split; intros H.
  - discriminate.
  - exfalso; apply H; left; reflexivity.
  - intros [H'|H']; [congruence | apply IH in H; contradiction].
  - apply IH; tauto.
Qed.

Lemma map_get_Some_In (k : K) (m : map_t) e :
  map_get k m = Some e -> In k (map fst m).
Proof.
  intros H. destruct (in_dec K_eq_dec k (map fst m)) as [Hin|Hn]; [exact Hin|].
  apply map_get_None_iff in Hn. congruence.
Qed.

Lemma map_set_absent (k : K) e (m : map_t) :
  map_get k m = None -> map_set k e m = m ++ [(k, e)].
Proof.
  induction m as [|[k' e'] m IH]; simpl; [reflexivity|].
  eqcase k k'; [discriminate|]. intros H; rewrite IH by exact H; reflexivity.
Qed.

Lemma keys_map_set_present (k : K) e (m : map_t) :
  map_get k m <> None -> map fst (map_set k e m) = map fst m.
Proof.
  induction m as [|[k' e'] m IH]; simpl; [congruence|].
  eqcase k k'; simpl; [reflexivity|]. intros H; rewrite IH by exact H; reflexivity.
Qed.

Lemma map_get_set (k k' : K) e (m : map_t) :
  map_get k' (map_set k e m) = if K_eq_dec k' k then Some e else map_get k' m.
Proof.
  induction m as [|[k0 e0] m IH]; simpl.
  - destruct (K_eq_dec k' k); reflexivity.
  - destruct (K_eq_dec k k0) as [Heq|Hne]; simpl.
    + subst k0. destruct (K_eq_dec k' k); reflexivity.
    + destruct (K_eq_dec k' k0) as [->|Hne'].
      * destruct (K_eq_dec k0 k); [congruence|reflexivity].
      * exact IH.
Qed.

Lemma map_delete_absent (k : K) (m : map_t) :
  map_get k m = None -> map_delete k m = m.
Proof.
  induction m as [|[k' e'] m IH]; simpl; [reflexivity|].
  eqcase k k'; [discriminate|]. intros H; rewrite IH by exact H; reflexivity.
Qed.

Lemma map_get_delete (k k' : K) (m : map_t) :
  NoDup (map fst m) ->
  map_get k' (map_delete k m) = if K_eq_dec k' k then None else map_get k' m.
Proof.
  induction m as [|[k0 e0] m IH]; simpl; intros Hnd.
  - destruct (K_eq_dec k' k); reflexivity.
  - apply NoDup_cons_iff in Hnd as [Hnin Hnd'].
    destruct (K_eq_dec k k0) as [<-|Hne].
    + destruct (K_eq_dec k' k) as [->|Hne']; [|reflexivity].
      apply map_get_None_iff; exact Hnin.
    + simpl. destruct (K_eq_dec k' k0) as [->|Hne'].
      * destruct (K_eq_dec k0 k); [congruence|reflexivity].
      * apply IH; exact Hnd'.
Qed.

Lemma keys_map_delete_incl (k : K) (m : map_t) x :
  In x (map fst (map_delete k m)) -> In x (map fst m).
Proof.
  induction m as [|[k0 e0] m IH]; simpl; [tauto|].
  eqcase k k0; simpl; [tauto|]. intros [H|H]; [left; exact H | right; auto].
Qed.

Lemma keys_map_delete_NoDup (k : K) (m : map_t) :
  NoDup (map fst m) -> NoDup (map fst (map_delete k m)).
Proof.
  induction m as [|[k0 e0] m IH]; simpl; intros Hnd; [constructor|].
  apply NoDup_cons_iff in Hnd as [Hnin Hnd'].
  eqcase k k0; [exact Hnd'|]. simpl. constructor; [|auto].
  intros Hin; apply Hnin; eapply keys_map_delete_incl; exact Hin.
Qed.

Lemma In_keys_map_delete (k : K) (m : map_t) x :
  NoDup (map fst m) ->
  (In x (map fst (map_delete k m)) <-> In x (map fst m) /\ x <> k).
Proof.
  intros Hnd.
  split.
  - intros Hin. split; [eapply keys_map_delete_incl; exact Hin|].
    intros ->. apply (map_get_None_iff k (map_delete k m)) in Hin; [exact Hin|].
    rewrite map_get_delete by exact Hnd. destruct (K_eq_dec k k); congruence.
  - intros [Hin Hne].
    destruct (map_get x m) as [e|] eqn:He.
    + eapply map_get_Some_In. rewrite map_get_delete by exact Hnd.
      destruct (K_eq_dec x k); [congruence|exact He].
    + apply map_get_None_iff in He; contradiction.
Qed.

Lemma length_map_delete_present (k : K) (m : map_t) :
  map_get k m <> None -> S (length (map_delete k m)) = length m.
Proof.
  induction m as [|[k0 e0] m IH]; simpl; [congruence|].
  eqcase k k0; [reflexivity|]. intros H; simpl; rewrite IH by exact H; reflexivity.
Qed.

Lemma keys_map_touch (k : K) t (m : map_t) :
  map fst (map_touch k t m) = map fst m.
Proof.
  induction m as [|[k0 e0] m IH]; simpl; [reflexivity|].
  eqcase k k0; simpl; [reflexivity|]. rewrite IH; reflexivity.
Qed.

Lemma map_get_touch (k k' : K) t (m : map_t) :
  map_get k' (map_touch k t m) =
  if K_eq_dec k' k
  then option_map (fun e => mkEntry (value e) (expiresAt e) t) (map_get k' m)
  else map_get k' m.
Proof.
  induction m as [|[k0 e0] m IH]; simpl.
  - destruct (K_eq_dec k' k); reflexivity.
  - destruct (K_eq_dec k k0) as [<-|Hne]; simpl.
    + destruct (K_eq_dec k' k); reflexivity.
    + destruct (K_eq_dec k' k0) as [->|Hne'].
      * destruct (K_eq_dec k0 k); [congruence|reflexivity].
      * exact IH.
Qed.

Lemma map_of_entries_NoDup (l : list (K * CacheEntry V)) :
  NoDup (map fst (map_of_entries K_eq_dec l)).
Proof.
  unfold map_of_entries.
  assert (Hg : forall (acc : map_t), NoDup (map fst acc) ->
            NoDup (map fst (fold_left (fun m ke => map_set (fst ke) (snd ke) m) l acc))).
  { induction l as [|[k e] l IH]; simpl; intros acc Hacc; [exact Hacc|].
    apply IH. destruct (map_get k acc) eqn:Hk.
    - rewrite keys_map_set_present by congruence. exact Hacc.
    - rewrite map_set_absent by exact Hk. rewrite map_app. simpl.
      apply NoDup_app; [exact Hacc | repeat constructor; simpl; tauto |].
      intros x Hx [<-|[]]. apply map_get_None_iff in Hk; contradiction. }
  apply Hg. constructor.
Qed.

Lemma map_of_entries_id (l : list (K * CacheEntry V)) :
  NoDup (map fst l) -> map_of_entries K_eq_dec l = l.
Proof.
  unfold map_of_entries. intros Hnd.
  assert (Hg : forall (acc : map_t),
            (forall x, In x (map fst l) -> ~ In x (map fst acc)) ->
            fold_left (fun m ke => map_set (fst ke) (snd ke) m) l acc = acc ++ l).
  { induction l as [|[k e] l IH]; simpl; intros acc Hdis.
    - rewrite app_nil_r; reflexivity.
    - apply NoDup_cons_iff in Hnd as [Hnin Hnd'].
      rewrite map_set_absent by (apply map_get_None_iff; apply Hdis; left; reflexivity).
      rewrite IH.
      + rewrite <- app_assoc; reflexivity.
      + exact Hnd'.
      + intros x Hx. rewrite map_app. simpl. intros Hin.
        apply in_app_or in Hin as [Hin|[<-|[]]].
        * apply (Hdis x); [right; exact Hx | exact Hin].
        * contradiction. }
  apply Hg. simpl; tauto.
Qed.

Lemma length_map_set (k : K) e (m : map_t) :
  (length (map_set k e m) <= S (length m))%nat.
Proof.
  induction m as [|[k0 e0] m IH]; simpl; [lia|]. destruct (K_eq_dec k k0); simpl; lia.
Qed.

Lemma length_map_of_entries (l : list (K * CacheEntry V)) :
  (length (map_of_entries K_eq_dec l) <= length l)%nat.
Proof.
  unfold map_of_entries.
  assert (Hg : forall (acc : map_t),
            (length (fold_left (fun m ke => map_set (fst ke) (snd ke) m) l acc)
             <= length acc + length l)%nat).
  { induction l as [|[k e] l IH]; simpl; intros acc; [lia|].
    specialize (IH (map_set k e acc)). pose proof (length_map_set k e acc). lia. }
  specialize (Hg []). simpl in Hg. exact Hg.
Qed.

Context (is_nan : K -> bool).
Local Abbreviation index_of := (index_of K_eq_dec is_nan).

(** [indexOf] finds the first [===] occurrence, and never a NaN. *)
Lemma index_of_Some (k : K) (l : list K) i :
  index_of k l = Some i ->
  exists l1 l2, l = l1 ++ k :: l2 /\ remove_at i l = l1 ++ l2 /\
                is_nan k = false /\ ~ In k l1 /\ i = length l1.
Proof.
  revert i. induction l as [|x l IH]; simpl; intros i H; [discriminate|].
  unfold strict_equals in H. destruct (K_eq_dec k x) as [->|Hne].
  - destruct (is_nan x) eqn:Hn; simpl in H.
    + destruct (index_of x l) as [j|] eqn:Hj; simpl in H; [|discriminate].
      injection H as <-. destruct (IH j eq_refl) as (l1 & l2 & -> & Hr & Hnan & _).
      congruence.
    + injection H as <-. exists [], l. simpl. repeat split; try reflexivity; try assumption; tauto.
  - destruct (index_of k l) as [j|] eqn:Hj; simpl in H; [|discriminate].
    injection H as <-. destruct (IH j eq_refl) as (l1 & l2 & -> & Hr & Hnan & Hnin & ->).
    exists (x :: l1), l2. simpl. rewrite Hr. repeat split; auto.
    intros [Hx|Hx]; [congruence|contradiction].
Qed.

Lemma index_of_None (k : K) (l : list K) :
  index_of k l = None -> is_nan k = true \/ ~ In k l.
Proof.
  induction l as [|x l IH]; simpl; intros H; [right; tauto|].
  unfold strict_equals in H. destruct (K_eq_dec k x) as [->|Hne].
  - destruct (is_nan x) eqn:Hn; simpl in H; [left; reflexivity|discriminate].
  - destruct (index_of k l); simpl in H; [discriminate|].
    destruct (IH eq_refl) as [Hn|Hn]; [left; exact Hn|right].
    intros [Hx|Hx]; [congruence|contradiction].
Qed.

Lemma index_of_first (k : K) l1 l2 :
  is_nan k = false -> ~ In k l1 -> index_of k (l1 ++ k :: l2) = Some (length l1).
Proof.
  intros Hn. induction l1 as [|x l1 IH]; simpl; intros Hnin.
  - unfold strict_equals. destruct (K_eq_dec k k); [|congruence]. rewrite Hn; reflexivity.
  - unfold strict_equals. destruct (K_eq_dec k x) as [->|Hne]; [tauto|].
    rewrite IH by tauto. reflexivity.
Qed.

Lemma remove_at_length l1 (k : K) l2 :
  remove_at (length l1) (l1 ++ k :: l2) = l1 ++ l2.
Proof. induction l1 as [|x l1 IH]; simpl; [reflexivity|]. rewrite IH; reflexivity. Qed.

End MapLemmas.

(** ** Hydration, eviction and the invariants *)
Section CacheLemmas.

Context {K V : Type}.
Context (K_eq_dec : forall x y : K, {x = y} + {x <> y}).
Context (is_nan : K -> bool).

Local Abbreviation map_t := (@map_t K V).
Local Abbreviation CacheState := (@CacheState K V).
Local Abbreviation map_get := (map_get K_eq_dec).
Local Abbreviation map_set := (map_set K_eq_dec).
Local Abbreviation map_delete := (map_delete K_eq_dec).
Local Abbreviation index_of := (index_of K_eq_dec is_nan).
Local Abbreviation wf_state := (wf_state is_nan).
Local Abbreviation inv := (inv is_nan).
Local Abbreviation nonnan := (nonnan is_nan).

Lemma Permutation_filter_ (f : K -> bool) l l' :
  Permutation l l' -> Permutation (filter f l) (filter f l').
Proof.
  induction 1; simpl.
  - constructor.
  - destruct (f x); [constructor|]; assumption.
  - destruct (f x), (f y); try constructor; reflexivity.
  - eapply perm_trans; eassumption.
Qed.

Lemma hydrate_loop_app now (loaded d : map_t) o :
  NoDup (map fst loaded) ->
  (forall x, In x (map fst loaded) -> ~ In x (map fst d)) ->
  hydrate_loop K_eq_dec now loaded d o =
  (d ++ filter (fun ke => live_at now (snd ke)) loaded,
   o ++ map fst (filter (fun ke => live_at now (snd ke)) loaded)).
Proof.
  unfold hydrate_loop. revert d o.
  induction loaded as [|[k e] loaded IH]; simpl; intros d o Hnd Hdis.
  - rewrite !app_nil_r; reflexivity.
  - apply NoDup_cons_iff in Hnd as [Hnin Hnd'].
    destruct (live_at now e); simpl.
    + rewrite map_set_absent
        by (apply map_get_None_iff; apply (Hdis k); left; reflexivity).
      rewrite IH; [rewrite <- !app_assoc; reflexivity | exact Hnd' |].
      intros x Hx. rewrite map_app. simpl. intros Hin.
      apply in_app_or in Hin as [Hin|[<-|[]]].
      * apply (Hdis x); [right; exact Hx | exact Hin].
      * contradiction.
    + apply IH; [exact Hnd'|]. intros x Hx; apply (Hdis x); right; exact Hx.
Qed.

Lemma insert_by_perm (f : K -> Z) x l : Permutation (insert_by f x l) (x :: l).
Proof.
  induction l as [|y l IH]; simpl; [reflexivity|].
  destruct (f x <? f y); [reflexivity|].
  eapply perm_trans; [apply perm_skip; exact IH | apply perm_swap].
Qed.

Lemma sort_by_perm (f : K -> Z) l : Permutation (sort_by f l) l.
Proof.
  unfold sort_by.
  assert (Hg : forall acc, Permutation (fold_left (fun acc x => insert_by f x acc) l acc)
                                       (l ++ acc)).
  { induction l as [|x l IH]; simpl; intros acc; [reflexivity|].
    eapply perm_trans; [apply IH|].
    eapply perm_trans; [apply Permutation_app_head; apply insert_by_perm|].
    apply Permutation_sym, Permutation_middle. }
  rewrite <- (app_nil_r l) at 2. apply Hg.
Qed.

Lemma insert_by_sorted (f : K -> Z) x l :
  Sorted (fun a b => f a <= f b) l -> Sorted (fun a b => f a <= f b) (insert_by f x l).
Proof.
  induction l as [|y l IH]; simpl; intros Hs.
  - repeat constructor.
  - destruct (f x <? f y) eqn:Hxy.
    + apply Z.ltb_lt in Hxy. constructor; [exact Hs | constructor; lia].
    + apply Z.ltb_ge in Hxy. inversion Hs as [|? ? Hs' Hhd]; subst.
      constructor; [apply IH; exact Hs'|].
      destruct l as [|z l]; simpl.
      * constructor; lia.
      * inversion Hhd; subst. destruct (f x <? f z); constructor; lia.
Qed.

Lemma sort_by_sorted (f : K -> Z) l : Sorted (fun a b => f a <= f b) (sort_by f l).
Proof.
  unfold sort_by.
  assert (Hg : forall acc, Sorted (fun a b => f a <= f b) acc ->
             Sorted (fun a b => f a <= f b)
                    (fold_left (fun acc x => insert_by f x acc) l acc)).
  { induction l as [|x l IH]; simpl; intros acc Hacc; [exact Hacc|].
    apply IH, insert_by_sorted, Hacc. }
  apply Hg. constructor.
Qed.

(** What [init()] does to a cache that has not loaded yet: the snapshot's
    live entries in snapshot order, and their keys sorted by [lastAccessed]. *)
Lemma init_fresh_spec now (st : CacheState) :
  initialized st = false -> data st = [] -> accessOrder st = [] ->
  let loaded := adapter_load K_eq_dec (storage st) in
  let d := filter (fun ke => live_at now (snd ke)) loaded in
  init K_eq_dec now st =
  mkState d (sort_by (la_of K_eq_dec d) (map fst d)) true (storage st)
          (calls st ++ [CallLoad]).
Proof.
  intros Hi Hd Ho. unfold init, hydrate. rewrite Hi. simpl. rewrite Hd, Ho.
  assert (Hnd : NoDup (map fst (adapter_load K_eq_dec (storage st)))).
  { destruct (storage st) as [|j md [l|]]; simpl; try constructor.
    apply map_of_entries_NoDup. }
  rewrite hydrate_loop_app; [reflexivity | exact Hnd | intros x _ H; exact H].
Qed.

Lemma NoDup_keys_filter (f : K * CacheEntry V -> bool) (m : map_t) :
  NoDup (map fst m) -> NoDup (map fst (filter f m)).
Proof.
  induction m as [|[k e] m IH]; simpl; intros Hnd; [constructor|].
  apply NoDup_cons_iff in Hnd as [Hnin Hnd'].
  destruct (f (k, e)); simpl; [|auto].
  constructor; [|auto]. intros Hin. apply Hnin.
  apply in_map_iff in Hin as [[k' e'] [Heq Hin]]; simpl in Heq; subst.
  apply filter_In in Hin as [Hin _]. apply (in_map fst) in Hin; exact Hin.
Qed.

End CacheLemmas.

(** ** Every completed operation preserves [wf_state] *)
Section Preservation.

Context {K V : Type}.
Context (K_eq_dec : forall x y : K, {x = y} + {x <> y}).
Context (is_nan : K -> bool).

Local Abbreviation map_t := (@map_t K V).
Local Abbreviation CacheState := (@CacheState K V).
Local Abbreviation map_get := (map_get K_eq_dec).
Local Abbreviation map_set := (map_set K_eq_dec).
Local Abbreviation map_delete := (map_delete K_eq_dec).
Local Abbreviation index_of := (index_of K_eq_dec is_nan).
Local Abbreviation WF := (wf_state is_nan).
Local Abbreviation INV := (inv is_nan).
Local Abbreviation NN := (nonnan is_nan).
Local Abbreviation INIT := (init K_eq_dec).
Local Abbreviation TOUCH := (touch K_eq_dec is_nan).
Local Abbreviation EVICT := (evictLRU K_eq_dec).
Local Abbreviation EVICTW := (evict_while K_eq_dec).

Lemma nonnan_app l1 l2 : NN (l1 ++ l2) = NN l1 ++ NN l2.
Proof. unfold nonnan. apply filter_app. Qed.

Lemma In_nonnan x l : In x (NN l) <-> In x l /\ is_nan x = false.
Proof.
  unfold nonnan. rewrite filter_In. destruct (is_nan x); simpl; intuition congruence.
Qed.

Lemma NoDup_snoc (l : list K) k : NoDup l -> ~ In k l -> NoDup (l ++ [k]).
Proof.
  intros Hnd Hn. eapply Permutation_NoDup; [apply Permutation_cons_append|].
  constructor; assumption.
Qed.

Lemma persist_fields cfg (st : CacheState) :
  data (persist cfg st) = data st /\ accessOrder (persist cfg st) = accessOrder st /\
  initialized (persist cfg st) = initialized st.
Proof. unfold persist, save. destruct (persistOnChange cfg); simpl; auto. Qed.

Lemma init_initialized now (st : CacheState) :
  initialized st = true -> INIT now st = st.
Proof. unfold init. intros ->. reflexivity. Qed.

Lemma wf_perm (st st' : CacheState) :
  map fst (data st') = map fst (data st) ->
  Permutation (accessOrder st) (accessOrder st') ->
  WF st -> WF st'.
Proof.
  intros Hk Hp (H1 & H2 & H3 & H4). unfold wf_state in *.
  rewrite Hk. repeat split.
  - exact H1.
  - intros x Hx. eapply Permutation_in; [exact Hp | apply H2; exact Hx].
  - intros x Hx Hn. apply H3; [|exact Hn].
    eapply Permutation_in; [apply Permutation_sym; exact Hp | exact Hx].
  - eapply Permutation_NoDup; [apply Permutation_filter_; exact Hp | exact H4].
Qed.

Lemma wf_touch k now (st : CacheState) :
  WF st -> In k (map fst (data st)) -> WF (TOUCH k now st).
Proof.
  intros Hwf Hk. unfold touch.
  destruct (index_of k (accessOrder st)) as [i|] eqn:Hi.
  - destruct (index_of_Some K_eq_dec is_nan k _ i Hi) as (l1 & l2 & Ho & Hr & _ & _ & _).
    rewrite Hr. apply (wf_perm st); simpl; [apply keys_map_touch| |exact Hwf].
    rewrite Ho, <- app_assoc. apply Permutation_app_head, Permutation_cons_append.
  - destruct Hwf as (H1 & H2 & H3 & H4).
    destruct (index_of_None K_eq_dec is_nan k _ Hi) as [Hn|Hn];
      [|exfalso; apply Hn, H2, Hk].
    unfold wf_state; simpl. rewrite keys_map_touch.
    repeat split.
    + exact H1.
    + intros x Hx. apply in_or_app; left; apply H2; exact Hx.
    + intros x Hx Hxn. apply in_app_or in Hx as [Hx|[<-|[]]]; [apply H3; assumption|exact Hk].
    + rewrite nonnan_app. unfold nonnan at 2. simpl. rewrite Hn. simpl.
      rewrite app_nil_r. exact H4.
Qed.

Lemma evictLRU_fields (st : CacheState) :
  initialized (EVICT st) = initialized st /\ storage (EVICT st) = storage st /\
  calls (EVICT st) = calls st /\
  (forall x, In x (map fst (data (EVICT st))) -> In x (map fst (data st))).
Proof.
  unfold evictLRU. destruct (accessOrder st) as [|h rest]; simpl; auto.
  repeat split; auto. intros x; apply keys_map_delete_incl.
Qed.

Lemma wf_evict (st : CacheState) : WF st -> WF (EVICT st).
Proof.
  intros (H1 & H2 & H3 & H4). unfold evictLRU.
  destruct (accessOrder st) as [|h rest] eqn:Ho; [repeat split; rewrite ?Ho; assumption|].
  assert (Hr : forall x, In x rest -> is_nan x = false -> x <> h).
  { intros x Hx Hxn ->. unfold nonnan in H4. simpl in H4. rewrite Hxn in H4.
    simpl in H4. apply NoDup_cons_iff in H4 as [Hn _]. apply Hn, filter_In.
    rewrite Hxn; auto. }
  unfold wf_state; simpl. repeat split.
  - apply keys_map_delete_NoDup; exact H1.
  - intros x Hx. apply In_keys_map_delete in Hx as [Hx Hne]; [|exact H1].
    apply H2 in Hx. destruct Hx as [->|Hx]; [congruence|exact Hx].
  - intros x Hx Hxn. apply In_keys_map_delete; [exact H1|]. split.
    + apply H3; [right; exact Hx | exact Hxn].
    + apply Hr; assumption.
  - unfold nonnan in *. simpl in H4. destruct (negb (is_nan h)); [|exact H4].
    apply NoDup_cons_iff in H4 as [_ H4]; exact H4.
Qed.

Lemma evict_while_spec cfg f (st st' : CacheState) :
  WF st -> EVICTW cfg f st = Some st' ->
  WF st' /\ Z.of_nat (length (data st')) < maxSize cfg /\
  initialized st' = initialized st /\ storage st' = storage st /\ calls st' = calls st /\
  (forall x, In x (map fst (data st')) -> In x (map fst (data st))).
Proof.
  revert st. induction f as [|f IH]; intros st Hwf H; simpl in H.
  - destruct (Z.of_nat (length (data st)) >=? maxSize cfg) eqn:Hc; [discriminate|].
    injection H as <-. rewrite Z.geb_leb in Hc; apply Z.leb_gt in Hc. auto 7.
  - destruct (Z.of_nat (length (data st)) >=? maxSize cfg) eqn:Hc.
    + destruct (IH _ (wf_evict st Hwf) H) as (Hw & Hl & Hi & Hs & Hc' & Hk).
      destruct (evictLRU_fields st) as (Hi' & Hs' & Hc'' & Hk').
      split; [exact Hw|]. split; [exact Hl|].
      split; [congruence|]. split; [congruence|]. split; [congruence|].
      intros x Hx; apply Hk', Hk, Hx.
    + injection H as <-. rewrite Z.geb_leb in Hc; apply Z.leb_gt in Hc. auto 7.
Qed.

Lemma evict_while_total cfg f (st : CacheState) :
  WF st -> 1 <= maxSize cfg -> (length (accessOrder st) < f)%nat ->
  exists st', EVICTW cfg f st = Some st'.
Proof.
  revert st. induction f as [|f IH]; intros st Hwf Hm Hf; [lia|]. simpl.
  destruct (Z.of_nat (length (data st)) >=? maxSize cfg) eqn:Hc; [|eauto].
  apply IH; [apply wf_evict; exact Hwf | exact Hm |].
  apply Z.geb_le in Hc. destruct (data st) as [|[k e] d] eqn:Hd; simpl in Hc; [lia|].
  destruct Hwf as (_ & H2 & _). specialize (H2 k). rewrite Hd in H2.
  specialize (H2 (or_introl eq_refl)). unfold evictLRU.
  destruct (accessOrder st) as [|h rest]; [contradiction|]. simpl in *. lia.
Qed.

Lemma adapter_load_NoDup (a : @adapter K V) : NoDup (map fst (adapter_load K_eq_dec a)).
Proof.
  destruct a as [|j md [l|]]; simpl; try constructor. apply map_of_entries_NoDup.
Qed.

Lemma inv_init now (st : CacheState) :
  INV st -> INV (INIT now st) /\ initialized (INIT now st) = true.
Proof.
  intros [Hwf Hu]. destruct (initialized st) eqn:Hi.
  - rewrite init_initialized by exact Hi. split; [split; [exact Hwf|congruence]|exact Hi].
  - destruct (Hu eq_refl) as [Hd Ho]. rewrite (init_fresh_spec K_eq_dec now st Hi Hd Ho).
    simpl. split; [|reflexivity]. split; [|discriminate].
    pose proof (NoDup_keys_filter (fun ke => live_at now (snd ke)) _
                  (adapter_load_NoDup (storage st))) as Hnd.
    set (d := filter _ _) in *.
    pose proof (sort_by_perm (la_of K_eq_dec d) (map fst d)) as Hp.
    repeat split; simpl.
    + exact Hnd.
    + intros x Hx. eapply Permutation_in; [apply Permutation_sym; exact Hp | exact Hx].
    + intros x Hx _. eapply Permutation_in; [exact Hp | exact Hx].
    + apply NoDup_filter. eapply Permutation_NoDup; [apply Permutation_sym; exact Hp|exact Hnd].
Qed.


Lemma wf_append k e (st : CacheState) :
  wf_state is_nan st -> ~ In k (map fst (data st)) ->
  wf_state is_nan (with_data_order (map_set k e (data st)) (accessOrder st ++ [k]) st).
Proof.
  intros (H1 & H2 & H3 & H4) Hk.
  assert (Hg : map_get k (data st) = None) by (apply map_get_None_iff; exact Hk).
  unfold wf_state; simpl. rewrite map_set_absent by exact Hg. rewrite map_app. simpl.
  repeat split.
  - apply NoDup_snoc; assumption.
  - intros x Hx. apply in_app_or in Hx as [Hx|Hx]; apply in_or_app; [left; apply H2; exact Hx|right; exact Hx].
  - intros x Hx Hxn. apply in_app_or in Hx as [Hx|Hx]; apply in_or_app;
      [left; apply H3; assumption | right; exact Hx].
  - rewrite nonnan_app. unfold nonnan at 2. simpl. destruct (is_nan k) eqn:Hn; simpl.
    + rewrite app_nil_r; exact H4.
    + apply NoDup_snoc; [exact H4|]. intros Hin. apply In_nonnan in Hin as [Hin _].
      apply Hk, H3; assumption.
Qed.

Lemma wf_delete_body cfg k (st : CacheState) :
  wf_state is_nan st -> wf_state is_nan (delete_body K_eq_dec is_nan cfg k st).
Proof.
  intros Hwf. unfold delete_body.
  destruct (persist_fields cfg (with_data_order (map_delete k (data st))
     (match index_of k (accessOrder st) with
      | Some i => remove_at i (accessOrder st) | None => accessOrder st end) st))
    as (Hd & Ho & _).
  destruct Hwf as (H1 & H2 & H3 & H4).
  unfold wf_state. rewrite Hd, Ho. simpl.
  destruct (index_of k (accessOrder st)) as [i|] eqn:Hi.
  - destruct (index_of_Some K_eq_dec is_nan k _ i Hi) as (l1 & l2 & Hol & Hr & Hn & _ & _).
    rewrite Hr. rewrite Hol in H2, H3, H4.
    rewrite nonnan_app in H4. unfold nonnan at 2 in H4. simpl in H4. rewrite Hn in H4. simpl in H4.
    apply NoDup_remove in H4 as [H4 Hkn].
    repeat split.
    + apply keys_map_delete_NoDup; exact H1.
    + intros x Hx. apply In_keys_map_delete in Hx as [Hx Hne]; [|exact H1].
      apply H2 in Hx. apply in_app_or in Hx as [Hx|[->|Hx]]; apply in_or_app; tauto.
    + intros x Hx Hxn. apply In_keys_map_delete; [exact H1|]. split.
      * apply H3; [|exact Hxn]. apply in_app_or in Hx as [Hx|Hx]; apply in_or_app; simpl; tauto.
      * intros ->. apply Hkn. unfold nonnan in *. rewrite <- filter_app.
        apply filter_In. rewrite Hxn. auto.
    + rewrite nonnan_app. exact H4.
  - assert (Hne : forall x, In x (accessOrder st) -> is_nan x = false -> x <> k).
    { intros x Hx Hxn Hxk. subst x. destruct (index_of_None K_eq_dec is_nan k _ Hi) as [Hn|Hn]; [congruence|contradiction]. }
    repeat split.
    + apply keys_map_delete_NoDup; exact H1.
    + intros x Hx. apply In_keys_map_delete in Hx as [Hx _]; [|exact H1]. apply H2; exact Hx.
    + intros x Hx Hxn. apply In_keys_map_delete; [exact H1|].
      split; [apply H3; assumption | apply Hne; assumption].
    + exact H4.
Qed.

Lemma initialized_delete_body cfg k (st : CacheState) :
  initialized (delete_body K_eq_dec is_nan cfg k st) = initialized st.
Proof. unfold delete_body. rewrite (proj2 (proj2 (persist_fields _ _))). reflexivity. Qed.

Lemma inv_set cfg k v ttl now (st st' : CacheState) :
  inv is_nan st -> set K_eq_dec is_nan cfg k v ttl now st = Some st' -> inv is_nan st'.
Proof.
  intros Hinv H. destruct (inv_init now st Hinv) as [[Hwf _] Hi].
  unfold set in H. set (st1 := init K_eq_dec now st) in *.
  set (e := mkEntry v _ now) in H.
  destruct (map_has K_eq_dec k (data st1)) eqn:Hh.
  - injection H as <-. destruct (persist_fields cfg (touch K_eq_dec is_nan k now
      (with_data_order (map_set k e (data st1)) (accessOrder st1) st1))) as (Hd & Ho & Hin).
    assert (Hk : map_get k (data st1) <> None)
      by (unfold map_has in Hh; destruct (map_get k (data st1)); congruence).
    assert (Hw : wf_state is_nan (touch K_eq_dec is_nan k now
              (with_data_order (map_set k e (data st1)) (accessOrder st1) st1))).
    { apply wf_touch.
      - apply (wf_perm st1); simpl; [apply keys_map_set_present; exact Hk|reflexivity|exact Hwf].
      - simpl. rewrite keys_map_set_present by exact Hk.
        destruct (map_get k (data st1)) eqn:Hg; [|congruence]. eapply map_get_Some_In; exact Hg. }
    split; [eapply (wf_perm _ _); [rewrite Hd; reflexivity|rewrite Ho; reflexivity|exact Hw]|].
    rewrite Hin. simpl. congruence.
  - destruct (EVICTW cfg _ st1) as [st2|] eqn:He; [|discriminate].
    injection H as <-. destruct (evict_while_spec cfg _ st1 st2 Hwf He) as (Hw2 & _ & Hi2 & _ & _ & Hk2).
    assert (Hk : ~ In k (map fst (data st2))).
    { intros Hin. apply Hk2 in Hin. unfold map_has in Hh.
      destruct (map_get k (data st1)) eqn:Hg; [discriminate|].
      apply map_get_None_iff in Hg. contradiction. }
    destruct (persist_fields cfg (with_data_order (map_set k e (data st2)) (accessOrder st2 ++ [k]) st2))
      as (Hd & Ho & Hin).
    split; [eapply (wf_perm _ _); [rewrite Hd; reflexivity|rewrite Ho; reflexivity|apply wf_append; exact Hw2 || exact Hk]|].
    rewrite Hin. simpl. congruence.
Qed.

Lemma inv_get cfg k now (st : CacheState) :
  inv is_nan st -> inv is_nan (fst (get K_eq_dec is_nan cfg k now st)) /\
                   initialized (fst (get K_eq_dec is_nan cfg k now st)) = true.
Proof.
  intros Hinv. destruct (inv_init now st Hinv) as [[Hwf Hu] Hi].
  unfold get. set (st1 := init K_eq_dec now st) in *.
  destruct (map_get k (data st1)) as [e|] eqn:Hg; simpl; [|split; [split; assumption|exact Hi]].
  destruct (isExpired e now); simpl.
  - unfold delete. rewrite (init_initialized now st1 Hi).
    split; [split; [apply wf_delete_body; exact Hwf|]|]; rewrite initialized_delete_body; congruence.
  - destruct (persist_fields cfg (touch K_eq_dec is_nan k now st1)) as (Hd & Ho & Hin).
    assert (Hw : wf_state is_nan (touch K_eq_dec is_nan k now st1))
      by (apply wf_touch; [exact Hwf | eapply map_get_Some_In; exact Hg]).
    split; [split; [eapply (wf_perm _ _); [rewrite Hd; reflexivity|rewrite Ho; reflexivity|exact Hw]|]|];
      rewrite Hin; simpl; congruence.
Qed.

Lemma inv_has cfg k now (st : CacheState) :
  inv is_nan st -> inv is_nan (fst (has K_eq_dec is_nan cfg k now st)) /\
                   initialized (fst (has K_eq_dec is_nan cfg k now st)) = true.
Proof.
  intros Hinv. destruct (inv_init now st Hinv) as [[Hwf Hu] Hi].
  unfold has. set (st1 := init K_eq_dec now st) in *.
  destruct (map_get k (data st1)) as [e|] eqn:Hg; simpl; [|split; [split; assumption|exact Hi]].
  destruct (isExpired e now); simpl; [|split; [split; assumption|exact Hi]].
  unfold delete. rewrite (init_initialized now st1 Hi).
  split; [split; [apply wf_delete_body; exact Hwf|]|]; rewrite initialized_delete_body; congruence.
Qed.

Lemma inv_step cfg (st st' : CacheState) o r :
  inv is_nan st -> step K_eq_dec is_nan cfg st o = Some (st', r) -> inv is_nan st'.
Proof.
  intros Hinv H. destruct o as [k now|k v ttl now|k now|k now|now| | |]; simpl in H.
  - destruct (get K_eq_dec is_nan cfg k now st) as [s1 r1] eqn:Hg. injection H as <- _.
    pose proof (inv_get cfg k now st Hinv) as Hx. rewrite Hg in Hx. exact (proj1 Hx).
  - destruct (set K_eq_dec is_nan cfg k v ttl now st) as [s1|] eqn:Hs; [|discriminate].
    injection H as <- _. eapply inv_set; eassumption.
  - injection H as <- _. destruct (inv_init now st Hinv) as [[Hwf _] Hi].
    unfold delete. split; [apply wf_delete_body; exact Hwf|].
    rewrite initialized_delete_body. congruence.
  - destruct (has K_eq_dec is_nan cfg k now st) as [s1 r1] eqn:Hg. injection H as <- _.
    pose proof (inv_has cfg k now st Hinv) as Hx. rewrite Hg in Hx. exact (proj1 Hx).
  - injection H as <- _. destruct (inv_init now st Hinv) as [_ Hi].
    unfold clear. split; [repeat split; simpl; try constructor; tauto|].
    simpl. congruence.
  - injection H as <- _. exact Hinv.
  - injection H as <- _. exact Hinv.
  - injection H as <- _. destruct Hinv as [Hwf Hu]. split; [exact Hwf|exact Hu].
Qed.

Lemma reachable_inv cfg ad (st : CacheState) :
  reachable K_eq_dec is_nan cfg (fresh ad) st -> inv is_nan st.
Proof.
  induction 1 as [|st o st' r _ IH Hs].
  - split; [repeat split; simpl; try constructor; tauto | intros _; split; reflexivity].
  - eapply inv_step; eassumption.
Qed.

End Preservation.

(** ** Sizes *)
Section Sizes.

Context {K V : Type}.
Context (K_eq_dec : forall x y : K, {x = y} + {x <> y}).
Context (is_nan : K -> bool).

Local Abbreviation map_t := (@map_t K V).
Local Abbreviation CacheState := (@CacheState K V).
Local Abbreviation map_get := (map_get K_eq_dec).
Local Abbreviation map_set := (map_set K_eq_dec).
Local Abbreviation map_delete := (map_delete K_eq_dec).

Lemma length_map_delete (k : K) (m : map_t) : (length (map_delete k m) <= length m)%nat.
Proof.
  induction m as [|[k0 e0] m IH]; simpl; [lia|]. destruct (K_eq_dec k k0); simpl; lia.
Qed.

Lemma length_map_touch (k : K) t (m : map_t) : length (map_touch K_eq_dec k t m) = length m.
Proof.
  rewrite <- (length_map fst), keys_map_touch, length_map. reflexivity.
Qed.

Lemma length_init now (st : CacheState) :
  inv is_nan st ->
  (length (data (init K_eq_dec now st)) <=
   if initialized st then length (data st)
   else length (adapter_load K_eq_dec (storage st)))%nat.
Proof.
  intros [_ Hu]. destruct (initialized st) eqn:Hi.
  - rewrite init_initialized by exact Hi. lia.
  - destruct (Hu eq_refl) as [Hd Ho]. rewrite (init_fresh_spec K_eq_dec now st Hi Hd Ho).
    simpl. apply filter_length_le.
Qed.

Lemma length_delete_body cfg k (st : CacheState) :
  (length (data (delete_body K_eq_dec is_nan cfg k st)) <= length (data st))%nat.
Proof.
  unfold delete_body. rewrite (proj1 (persist_fields _ _)). simpl. apply length_map_delete.
Qed.

Lemma length_get cfg k now (st : CacheState) :
  inv is_nan st ->
  (length (data (fst (get K_eq_dec is_nan cfg k now st))) <=
   length (data (init K_eq_dec now st)))%nat.
Proof.
  intros Hinv. destruct (inv_init K_eq_dec is_nan now st Hinv) as [_ Hi].
  unfold get. destruct (map_get k (data (init K_eq_dec now st))) as [e|]; simpl; [|lia].
  destruct (isExpired e now); simpl.
  - unfold delete. rewrite (init_initialized K_eq_dec now _ Hi). apply length_delete_body.
  - rewrite (proj1 (persist_fields _ _)). simpl. rewrite length_map_touch. lia.
Qed.

Lemma length_has cfg k now (st : CacheState) :
  inv is_nan st ->
  (length (data (fst (has K_eq_dec is_nan cfg k now st))) <=
   length (data (init K_eq_dec now st)))%nat.
Proof.
  intros Hinv. destruct (inv_init K_eq_dec is_nan now st Hinv) as [_ Hi].
  unfold has. destruct (map_get k (data (init K_eq_dec now st))) as [e|]; simpl; [|lia].
  destruct (isExpired e now); simpl; [|lia].
  unfold delete. rewrite (init_initialized K_eq_dec now _ Hi). apply length_delete_body.
Qed.

(** A [set] leaves at most [maxSize] entries whenever it returns. *)
Lemma length_set cfg k v ttl now (st st' : CacheState) :
  inv is_nan st ->
  Z.of_nat (length (data (init K_eq_dec now st))) <= maxSize cfg ->
  set K_eq_dec is_nan cfg k v ttl now st = Some st' ->
  Z.of_nat (length (data st')) <= maxSize cfg.
Proof.
  intros Hinv Hle H. destruct (inv_init K_eq_dec is_nan now st Hinv) as [[Hwf _] _].
  unfold set in H. set (st1 := init K_eq_dec now st) in *.
  set (e := mkEntry v _ now) in H.
  destruct (map_has K_eq_dec k (data st1)) eqn:Hh.
  - injection H as <-. rewrite (proj1 (persist_fields _ _)). simpl.
    rewrite length_map_touch. simpl.
    rewrite <- (length_map fst), keys_map_set_present, length_map; [exact Hle|].
    unfold map_has in Hh. destruct (map_get k (data st1)); congruence.
  - destruct (evict_while K_eq_dec cfg _ st1) as [st2|] eqn:He; [|discriminate].
    injection H as <-. destruct (evict_while_spec K_eq_dec is_nan cfg _ st1 st2 Hwf He)
      as (_ & Hlt & _ & _ & _ & Hk2).
    rewrite (proj1 (persist_fields _ _)). simpl.
    rewrite map_set_absent.
    + rewrite length_app. simpl. lia.
    + apply map_get_None_iff. intros Hin. apply Hk2 in Hin. unfold map_has in Hh.
      destruct (map_get k (data st1)) eqn:Hg; [discriminate|].
      apply map_get_None_iff in Hg. contradiction.
Qed.

Lemma length_json_entries json (l l' : list (K * CacheEntry V)) :
  json_entries json l = Some l' -> length l' = length l.
Proof.
  revert l'. induction l as [|ke l IH]; simpl; intros l' H.
  - injection H as <-. reflexivity.
  - destruct (json ke), (json_entries json l) as [l''|] eqn:Hl; try discriminate.
    injection H as <-. simpl. rewrite (IH l'' eq_refl). reflexivity.
Qed.

(** A save stores at most the entries of the Map, or leaves the storage. *)
Lemma length_adapter_save (d : map_t) a :
  (length (adapter_load K_eq_dec (adapter_save d a)) <= length d)%nat \/
  adapter_load K_eq_dec (adapter_save d a) = adapter_load K_eq_dec a.
Proof.
  destruct a as [|json md s]; simpl; [left; lia|].
  destruct (json_entries json d) as [l|] eqn:Hj; [|right; reflexivity].
  destruct (on_write md); simpl; [left|right; reflexivity|left; simpl; lia].
  rewrite <- (length_json_entries json d l Hj). apply length_map_of_entries.
Qed.

End Sizes.

(** ** The claims *)
Section Claims.

Context {K V : Type}.
Context (K_eq_dec : forall x y : K, {x = y} + {x <> y}).
Context (is_nan : K -> bool).

Local Abbreviation CacheState := (@CacheState K V).

(** The bound on the number of entries that every completed operation keeps. *)
Lemma capacity_step cfg (st st' : CacheState) o r :
  inv is_nan st -> 1 <= maxSize cfg ->
  Z.of_nat (length (data st)) <= maxSize cfg ->
  (initialized st = false ->
   Z.of_nat (length (adapter_load K_eq_dec (storage st))) <= maxSize cfg) ->
  step K_eq_dec is_nan cfg st o = Some (st', r) ->
  Z.of_nat (length (data st')) <= maxSize cfg /\
  (initialized st' = false ->
   Z.of_nat (length (adapter_load K_eq_dec (storage st'))) <= maxSize cfg).
Proof.
  intros Hinv Hm Hd Hs H.
  assert (Hi0 : forall now, Z.of_nat (length (data (init K_eq_dec now st))) <= maxSize cfg).
  { intros now. pose proof (length_init K_eq_dec is_nan now st Hinv) as Hl.
    destruct (initialized st); [lia|]. specialize (Hs eq_refl). lia. }
  destruct o as [k now|k v ttl now|k now|k now|now| | |]; simpl in H.
  - destruct (get K_eq_dec is_nan cfg k now st) as [s1 r1] eqn:Hg. injection H as <- _.
    pose proof (length_get K_eq_dec is_nan cfg k now st Hinv) as Hl.
    pose proof (proj2 (inv_get K_eq_dec is_nan cfg k now st Hinv)) as Hi.
    rewrite Hg in Hl, Hi. simpl in Hl, Hi. specialize (Hi0 now).
    split; [lia|congruence].
  - destruct (set K_eq_dec is_nan cfg k v ttl now st) as [s1|] eqn:Hs1; [|discriminate].
    injection H as <- _. split; [eapply length_set; eauto|].
    pose proof (inv_set K_eq_dec is_nan cfg k v ttl now st s1 Hinv Hs1) as [_ Hu].
    unfold set in Hs1. destruct (inv_init K_eq_dec is_nan now st Hinv) as [_ Hi].
    intros Hf. exfalso. revert Hs1.
    destruct (map_has K_eq_dec k (data (init K_eq_dec now st))).
    + intros Hx. injection Hx as <-. revert Hf. rewrite (proj2 (proj2 (persist_fields _ _))).
      simpl. congruence.
    + destruct (evict_while K_eq_dec cfg _ _) as [s2|] eqn:He; [|discriminate].
      destruct (inv_init K_eq_dec is_nan now st Hinv) as [[Hwf _] _].
      destruct (evict_while_spec K_eq_dec is_nan cfg _ _ s2 Hwf He) as (_ & _ & Hi2 & _).
      intros Hx. injection Hx as <-. revert Hf. rewrite (proj2 (proj2 (persist_fields _ _))).
      simpl. congruence.
  - injection H as <- _. destruct (inv_init K_eq_dec is_nan now st Hinv) as [_ Hi].
    unfold delete. split.
    + pose proof (length_delete_body K_eq_dec is_nan cfg k (init K_eq_dec now st)).
      specialize (Hi0 now). lia.
    + rewrite initialized_delete_body. congruence.
  - destruct (has K_eq_dec is_nan cfg k now st) as [s1 r1] eqn:Hg. injection H as <- _.
    pose proof (length_has K_eq_dec is_nan cfg k now st Hinv) as Hl.
    pose proof (proj2 (inv_has K_eq_dec is_nan cfg k now st Hinv)) as Hi.
    rewrite Hg in Hl, Hi. simpl in Hl, Hi. specialize (Hi0 now).
    split; [lia|congruence].
  - injection H as <- _. destruct (inv_init K_eq_dec is_nan now st Hinv) as [_ Hi].
    unfold clear; simpl. split; [lia|congruence].
  - injection H as <- _. auto.
  - injection H as <- _. auto.
  - injection H as <- _. unfold save; simpl. split; [exact Hd|].
    intros Hf. destruct (length_adapter_save K_eq_dec (data st) (storage st)) as [Hl|Hl];
      [lia|rewrite Hl; exact (Hs Hf)].
Qed.

Lemma capacity_reachable cfg ad (st : CacheState) :
  1 <= maxSize cfg ->
  Z.of_nat (length (adapter_load K_eq_dec ad)) <= maxSize cfg ->
  reachable K_eq_dec is_nan cfg (fresh ad) st ->
  Z.of_nat (length (data st)) <= maxSize cfg /\
  (initialized st = false ->
   Z.of_nat (length (adapter_load K_eq_dec (storage st))) <= maxSize cfg).
Proof.
  intros Hm Hl Hr. induction Hr as [|st o st' r Hr IH Hs].
  - simpl. split; [lia|auto].
  - destruct IH as [Hd Hs0].
    eapply capacity_step; [eapply reachable_inv; exact Hr | exact Hm | exact Hd | exact Hs0 | exact Hs].
Qed.

Lemma run_ops_reachable cfg (st0 : CacheState) ops :
  forall st st', reachable K_eq_dec is_nan cfg st0 st ->
  run_ops K_eq_dec is_nan cfg st ops = Some st' ->
  reachable K_eq_dec is_nan cfg st0 st'.
Proof.
  unfold run_ops. induction ops as [|o ops IH]; simpl; intros st st' Hr H.
  - injection H as <-. exact Hr.
  - destruct (step K_eq_dec is_nan cfg st o) as [[s1 r1]|] eqn:Hs; simpl in H.
    + apply (IH s1 st'); [eapply reach_step; eassumption | exact H].
    + exfalso. clear -H. induction ops as [|o' ops IH]; simpl in H; [discriminate|].
      exact (IH H).
Qed.

(** [delete] of a key that the hydrated Map does not hold. *)
Lemma delete_absent cfg k now (st : CacheState) :
  inv is_nan st -> ~ In k (keys (init K_eq_dec now st)) ->
  data (delete K_eq_dec is_nan cfg k now st) = data (init K_eq_dec now st) /\
  accessOrder (delete K_eq_dec is_nan cfg k now st) = accessOrder (init K_eq_dec now st).
Proof.
  intros Hinv Hk. destruct (inv_init K_eq_dec is_nan now st Hinv) as [[Hwf _] _].
  unfold delete, delete_body.
  destruct (persist_fields cfg (with_data_order
      (map_delete K_eq_dec k (data (init K_eq_dec now st)))
      (match index_of K_eq_dec is_nan k (accessOrder (init K_eq_dec now st)) with
       | Some i => remove_at i (accessOrder (init K_eq_dec now st))
       | None => accessOrder (init K_eq_dec now st) end)
      (init K_eq_dec now st))) as (-> & -> & _).
  simpl. split.
  - apply map_delete_absent, map_get_None_iff. exact Hk.
  - destruct (index_of K_eq_dec is_nan k _) as [i|] eqn:Hi; [|reflexivity].
    exfalso. destruct (index_of_Some K_eq_dec is_nan k _ i Hi) as (l1 & l2 & Hl & _ & Hn & _).
    destruct Hwf as (_ & _ & H3 & _). apply Hk, H3; [|exact Hn].
    rewrite Hl. apply in_or_app; right; left; reflexivity.
Qed.

(** C1 (amended): if the snapshot the adapter holds when the cache is
    created has at most [maxSize] entries, and [maxSize] is at least one,
    then after every completed operation [size()] is at most [maxSize]. *)
Theorem C1_size_le_capacity cfg ad (st : CacheState) :
  1 <= maxSize cfg ->
  Z.of_nat (length (adapter_load K_eq_dec ad)) <= maxSize cfg ->
  reachable K_eq_dec is_nan cfg (fresh ad) st ->
  Z.of_nat (size st) <= maxSize cfg.
Proof.
  intros Hm Hl Hr. exact (proj1 (capacity_reachable cfg ad st Hm Hl Hr)).
Qed.

(** C8: with [maxSize] at least one, every operation of a reachable state
    returns (the eviction loop ends), and [delete] of a key the hydrated
    Map does not hold leaves the Map and [accessOrder] as hydration left
    them. *)
Theorem C8_total_and_idempotent_delete cfg ad (st : CacheState) :
  1 <= maxSize cfg ->
  reachable K_eq_dec is_nan cfg (fresh ad) st ->
  (forall o, exists st' r, step K_eq_dec is_nan cfg st o = Some (st', r)) /\
  (forall k now, ~ In k (keys (init K_eq_dec now st)) ->
     data (delete K_eq_dec is_nan cfg k now st) = data (init K_eq_dec now st) /\
     accessOrder (delete K_eq_dec is_nan cfg k now st) = accessOrder (init K_eq_dec now st)).
Proof.
  intros Hm Hr. pose proof (reachable_inv K_eq_dec is_nan cfg ad st Hr) as Hinv.
  split; [|intros k now Hk; apply delete_absent; assumption].
  intros o. destruct o as [k now|k v ttl now|k now|k now|now| | |]; simpl; eauto.
  - destruct (get K_eq_dec is_nan cfg k now st); eauto.
  - unfold set. destruct (inv_init K_eq_dec is_nan now st Hinv) as [[Hwf _] _].
    destruct (map_has K_eq_dec k _); [eauto|].
    destruct (evict_while_total K_eq_dec is_nan cfg
                (S (length (accessOrder (init K_eq_dec now st)))) _ Hwf Hm (Nat.lt_succ_diag_r _))
      as [st2 ->].
    eauto.
  - destruct (has K_eq_dec is_nan cfg k now st); eauto.
Qed.

(** C10: with [persistOnChange], [delete(key)] ends with one call of the
    adapter's [save] on the whole Map, whether or not the key was there. *)
Theorem C10_delete_always_saves cfg k now (st : CacheState) :
  persistOnChange cfg = true ->
  calls (delete K_eq_dec is_nan cfg k now st) =
    calls (init K_eq_dec now st) ++ [CallSave (data (delete K_eq_dec is_nan cfg k now st))] /\
  data (delete K_eq_dec is_nan cfg k now st) = map_delete K_eq_dec k (data (init K_eq_dec now st)) /\
  storage (delete K_eq_dec is_nan cfg k now st) =
    adapter_save (data (delete K_eq_dec is_nan cfg k now st)) (storage (init K_eq_dec now st)).
Proof.
  intros Hp. unfold delete, delete_body, persist. rewrite Hp. simpl. auto.
Qed.

End Claims.

(** C1: a cache of capacity one over a snapshot of two entries holds both
    of them after its first [has]. *)
Lemma C1_hydration_exceeds_capacity :
  ~ (forall st, reachable jskey_eq_dec jskey_is_nan cfg1 (fresh snap2) st ->
                Z.of_nat (size st) <= maxSize cfg1).
Proof.
  intros H.
  assert (Hr : reachable jskey_eq_dec jskey_is_nan cfg1 (fresh snap2)
                 (fst (has jskey_eq_dec jskey_is_nan cfg1 (JStr 5) 0 (fresh snap2)))).
  { apply reach_step with (st := fresh snap2) (o := OpHas (JStr 5) 0) (r := RBool false);
    [apply reach_here | vm_compute; reflexivity]. }
  specialize (H _ Hr). vm_compute in H. apply H. reflexivity.
Qed.

Lemma C1_witness :
  Z.of_nat (size (fst (has jskey_eq_dec jskey_is_nan cfg1 (JStr 5) 0 (fresh snap1)))) <= maxSize cfg1.
Proof.
  apply (C1_size_le_capacity jskey_eq_dec jskey_is_nan cfg1 snap1).
  - vm_compute. discriminate.
  - vm_compute. discriminate.
  - apply reach_step with (st := fresh snap1) (o := OpHas (JStr 5) 0) (r := RBool false);
      [apply reach_here | vm_compute; reflexivity].
Defined.

Lemma C8_witness :
  (forall o, exists st' r, step jskey_eq_dec jskey_is_nan cfg1 (fresh snap2) o = Some (st', r)) /\
  (forall k now, ~ In k (keys (init jskey_eq_dec now (fresh snap2))) ->
     data (jdelete cfg1 k now (fresh snap2)) = data (init jskey_eq_dec now (fresh snap2)) /\
     accessOrder (jdelete cfg1 k now (fresh snap2)) = accessOrder (init jskey_eq_dec now (fresh snap2))).
Proof.
  apply (C8_total_and_idempotent_delete jskey_eq_dec jskey_is_nan cfg1 snap2).
  - vm_compute. discriminate.
  - apply reach_here.
Defined.

Lemma C10_witness :
  let st := jdelete default_config (JStr 9) 0 (fresh snap1) in
  calls st = calls (init jskey_eq_dec 0 (fresh snap1)) ++ [CallSave (data st)] /\
  data st = map_delete jskey_eq_dec (JStr 9) (data (init jskey_eq_dec 0 (fresh snap1))) /\
  storage st = adapter_save (data st) (storage (init jskey_eq_dec 0 (fresh snap1))).
Proof.
  apply (C10_delete_always_saves jskey_eq_dec jskey_is_nan default_config (JStr 9) 0 (fresh snap1)).
  reflexivity.
Defined.

(** ** Loads of the cooperative model *)
Section AsyncProofs.

Context {K V : Type}.
Context (K_eq_dec : forall x y : K, {x = y} + {x <> y}).
Context (is_nan : K -> bool).

Local Abbreviation CacheState := (@CacheState K V).
Local Abbreviation LC := (@load_count K V).

Lemma load_count_app (l l' : list (@adapter_call K V)) :
  LC (l ++ l') = (LC l + LC l')%nat.
Proof. unfold load_count. rewrite filter_app, length_app. reflexivity. Qed.

Lemma load_count_save d l : LC (l ++ [@CallSave K V d]) = LC l.
Proof. rewrite load_count_app. change (LC [CallSave d]) with 0%nat. apply Nat.add_0_r. Qed.

Lemma same_loads_refl (st : CacheState) : same_loads st st.
Proof. split; reflexivity. Qed.

Lemma same_loads_trans (s1 s2 s3 : CacheState) :
  same_loads s1 s2 -> same_loads s2 s3 -> same_loads s1 s3.
Proof. unfold same_loads. intros [] []. split; congruence. Qed.

Lemma same_loads_save (st : CacheState) : same_loads st (save st).
Proof. split; [reflexivity|]. simpl. apply load_count_save. Qed.

Lemma same_loads_persist cfg (st : CacheState) : same_loads st (persist cfg st).
Proof.
  unfold persist. destruct (persistOnChange cfg); [apply same_loads_save|apply same_loads_refl].
Qed.

Lemma same_loads_evict_while cfg f (st st' : CacheState) :
  evict_while K_eq_dec cfg f st = Some st' -> same_loads st st'.
Proof.
  revert st. induction f as [|f IH]; intros st H; simpl in H;
    destruct (Z.of_nat (length (data st)) >=? maxSize cfg).
  - discriminate.
  - injection H as <-. split; reflexivity.
  - destruct (evictLRU_fields K_eq_dec st) as (Hi & _ & Hc & _).
    eapply same_loads_trans; [|exact (IH _ H)]. split; congruence.
  - injection H as <-. split; reflexivity.
Qed.

Lemma same_loads_delete_body cfg k (st : CacheState) :
  same_loads st (delete_body K_eq_dec is_nan cfg k st).
Proof.
  unfold delete_body. eapply same_loads_trans; [|apply same_loads_persist].
  split; reflexivity.
Qed.

(** Once [initialized], a completed operation never loads again; nor does
    a synchronous method at any time. *)
Lemma step_same_loads cfg (st st' : CacheState) o r :
  (initialized st = true \/ is_async o = false) ->
  step K_eq_dec is_nan cfg st o = Some (st', r) -> same_loads st st'.
Proof.
  intros Hio H. destruct o as [k now|k v ttl now|k now|k now|now| | |]; simpl in H;
    try (destruct Hio as [Hi|Hio]; [|discriminate Hio]).
  - unfold get in H. rewrite (init_initialized K_eq_dec now st Hi) in H.
    destruct (map_get K_eq_dec k (data st)) as [e|]; [|injection H as <- _; split; reflexivity].
    destruct (isExpired e now); injection H as <- _.
    + unfold delete. rewrite (init_initialized K_eq_dec now st Hi). apply same_loads_delete_body.
    + eapply same_loads_trans; [|apply same_loads_persist]. split; reflexivity.
  - unfold set in H. rewrite (init_initialized K_eq_dec now st Hi) in H.
    destruct (map_has K_eq_dec k (data st)).
    + injection H as <-. eapply same_loads_trans; [|apply same_loads_persist].
      split; reflexivity.
    + destruct (evict_while K_eq_dec cfg _ st) as [s2|] eqn:He; [|discriminate].
      injection H as <-. eapply same_loads_trans; [apply (same_loads_evict_while _ _ _ _ He)|].
      eapply same_loads_trans; [|apply same_loads_persist]. split; reflexivity.
  - injection H as <- _. unfold delete. rewrite (init_initialized K_eq_dec now st Hi).
    apply same_loads_delete_body.
  - unfold has in H. rewrite (init_initialized K_eq_dec now st Hi) in H.
    destruct (map_get K_eq_dec k (data st)) as [e|]; [|injection H as <- _; split; reflexivity].
    destruct (isExpired e now); injection H as <- _; [|split; reflexivity].
    unfold delete. rewrite (init_initialized K_eq_dec now st Hi). apply same_loads_delete_body.
  - injection H as <- _. unfold clear. rewrite (init_initialized K_eq_dec now st Hi).
    split; [reflexivity|]. simpl. rewrite load_count_app. change (LC [CallClear]) with 0%nat. apply Nat.add_0_r.
  - injection H as <- _. split; reflexivity.
  - injection H as <- _. split; reflexivity.
  - injection H as <- _. apply same_loads_save.
Qed.

Lemma hydrate_fields now loaded (st : CacheState) :
  initialized (hydrate K_eq_dec now loaded st) = true /\
  calls (hydrate K_eq_dec now loaded st) = calls st.
Proof.
  unfold hydrate. destruct (hydrate_loop K_eq_dec now loaded (data st) (accessOrder st)).
  split; reflexivity.
Qed.

Lemma async_inv_step cfg (a a' : @AsyncState K V) ev :
  async_inv a -> async_step K_eq_dec is_nan cfg a ev = Some a' -> async_inv a'.
Proof.
  unfold async_inv. intros Hinv H. destruct ev as [o|now|i]; simpl in H.
  - destruct (is_async o) eqn:Ha.
    + unfold init_prefix in H. destruct (initialized (cache a)) eqn:Hi.
      * injection H as <-. simpl.
        destruct (initPromise a); [destruct Hinv as [Hf _]; congruence
                                   |destruct Hinv as [Hf _]; congruence|exact (conj Hi (proj2 Hinv))].
      * destruct (initPromise a) as [|loaded|] eqn:Hp.
        -- injection H as <-. simpl. destruct Hinv as (_ & Hl & Hw & Hc).
           split; [first [exact Hi|reflexivity]|]. split; [rewrite load_count_app, Hl; reflexivity|].
           split; [|exact Hc]. rewrite Hw. intros o' w [Hx|[]]. congruence.
        -- injection H as <-. simpl. rewrite Hp. destruct Hinv as (Hf & Hl & Hw & Hc).
           repeat split; auto. intros o' w Hin. apply in_app_or in Hin as [Hin|[Hx|[]]].
           ++ exact (Hw o' w Hin).
           ++ congruence.
        -- destruct Hinv as [Hf _]. congruence.
    + destruct (step K_eq_dec is_nan cfg (cache a) o) as [[c' r]|] eqn:Hs; [|discriminate].
      injection H as <-. simpl.
      destruct (step_same_loads cfg _ _ o r (or_intror Ha) Hs) as [Hi Hl].
      rewrite Hi, Hl.
      destruct (initPromise a).
      * destruct Hinv as (H1 & H2 & H3 & H4). repeat split; auto.
        intros o' r' b Hin. apply in_app_or in Hin as [Hin|[Hx|[]]]; [eauto|].
        injection Hx as -> _ _. exact Ha.
      * destruct Hinv as (H1 & H2 & H3 & H4). repeat split; auto.
        intros o' r' b Hin. apply in_app_or in Hin as [Hin|[Hx|[]]]; [eauto|].
        injection Hx as -> _ _. exact Ha.
      * destruct Hinv as (H1 & H2 & H3). repeat split; auto.
        intros o' r' b Hin Ha'. apply in_app_or in Hin as [Hin|[Hx|[]]]; [eauto|].
        injection Hx as -> _ _. congruence.
  - destruct (initPromise a) as [|loaded|]; try discriminate.
    injection H as <-. simpl. destruct Hinv as (_ & Hl & _ & Hc).
    destruct (hydrate_fields now loaded (cache a)) as [Hi Hcl].
    split; [exact Hi|]. split; [rewrite Hcl; exact Hl|].
    intros o r b Hin Ha. rewrite (Hc o r b Hin) in Ha. discriminate.
  - destruct (nth_error (waiting a) i) as [[o w]|] eqn:Hn; [|discriminate].
    apply nth_error_In in Hn.
    destruct (promise_resolved w (initPromise a)) eqn:Hr; [|discriminate].
    destruct (initPromise a) as [|loaded|] eqn:Hp.
    + destruct Hinv as (_ & _ & Hw & _). rewrite Hw in Hn. destruct Hn.
    + destruct Hinv as (_ & _ & Hw & _). rewrite (Hw o w Hn) in Hr. discriminate.
    + destruct Hinv as (Hi & Hl & Hc).
      destruct (step K_eq_dec is_nan cfg (cache a) o) as [[c' r]|] eqn:Hs; [|discriminate].
      injection H as <-. simpl.
      destruct (step_same_loads cfg _ _ o r (or_introl Hi) Hs) as [Hi' Hl'].
      split; [congruence|]. split; [congruence|].
      intros o' r' b Hin Ha. apply in_app_or in Hin as [Hin|[Hx|[]]]; [eauto|].
      injection Hx as _ _ <-. exact Hi.
Qed.

Lemma async_reachable_inv cfg ad (a : @AsyncState K V) :
  async_reachable K_eq_dec is_nan cfg ad a -> async_inv a.
Proof.
  induction 1 as [|a ev a' _ IH Hs].
  - simpl. repeat split; [intros o r b []].
  - eapply async_inv_step; eassumption.
Qed.

Lemma run_events_reachable cfg ad evs :
  forall (a a' : @AsyncState K V), async_reachable K_eq_dec is_nan cfg ad a ->
  run_events K_eq_dec is_nan cfg a evs = Some a' ->
  async_reachable K_eq_dec is_nan cfg ad a'.
Proof.
  unfold run_events. induction evs as [|ev evs IH]; simpl; intros a a' Hr H.
  - injection H as <-. exact Hr.
  - destruct (async_step K_eq_dec is_nan cfg a ev) as [a1|] eqn:Hs.
    + apply (IH a1 a'); [eapply areach_step; eassumption | exact H].
    + exfalso. clear -H. induction evs as [|ev' evs IH]; simpl in H; [discriminate|].
      exact (IH H).
Qed.

(** C3 (amended): whatever the interleaving of calls and of the load,
    [storage.load()] is called at most once; as soon as any [async] method
    ([get], [set], [delete], [has], [clear]) has been called, it has been
    called exactly once; and every such call completes only after the
    loaded snapshot has been installed ([initialized] when its body ran). *)
Theorem C3_load_once_before_async_results cfg ad (a : @AsyncState K V) :
  async_reachable K_eq_dec is_nan cfg ad a ->
  (LC (calls (cache a)) <= 1)%nat /\
  (forall o w, In (o, w) (waiting a) -> LC (calls (cache a)) = 1%nat) /\
  (forall o r b, In (o, r, b) (completed a) -> is_async o = true ->
     b = true /\ LC (calls (cache a)) = 1%nat).
Proof.
  intros Hr. pose proof (async_reachable_inv cfg ad a Hr) as Hinv. unfold async_inv in Hinv.
  destruct (initPromise a).
  - destruct Hinv as (_ & Hl & Hw & Hc). split; [lia|]. split.
    + intros o w Hin. rewrite Hw in Hin. destruct Hin.
    + intros o r b Hin Ha. rewrite (Hc o r b Hin) in Ha. discriminate.
  - destruct Hinv as (_ & Hl & _ & Hc). split; [lia|]. split; [auto|].
    intros o r b Hin Ha. rewrite (Hc o r b Hin) in Ha. discriminate.
  - destruct Hinv as (_ & Hl & Hc). split; [lia|]. split; [auto|].
    intros o r b Hin Ha. split; [exact (Hc o r b Hin Ha)|exact Hl].
Qed.

End AsyncProofs.

(** C3: [size()] does not wait for the load: called first on a cache whose
    storage holds one entry, it reports 0 before any load was issued. *)
Lemma C3_size_answers_before_load :
  ~ (forall a, async_reachable jskey_eq_dec jskey_is_nan default_config snap1 a ->
       forall o r b, In (o, r, b) (completed a) -> b = true /\ load_count (calls (cache a)) = 1%nat).
Proof.
  intros H.
  assert (Hr : async_reachable jskey_eq_dec jskey_is_nan default_config snap1
     (mkAsync (fresh snap1) NoPromise [] [(OpSize, RSize 0, false)])).
  { apply areach_step with (a := async_start snap1) (ev := EvCall OpSize); [apply areach_start | vm_compute; reflexivity]. }
  destruct (H _ Hr OpSize (RSize 0) false (or_introl eq_refl)) as [Hb _]. discriminate Hb.
Qed.

Lemma C3_witness :
  (load_count (calls (cache c3_state)) <= 1)%nat /\
  (forall o w, In (o, w) (waiting c3_state) -> load_count (calls (cache c3_state)) = 1%nat) /\
  (forall o r b, In (o, r, b) (completed c3_state) -> is_async o = true ->
     b = true /\ load_count (calls (cache c3_state)) = 1%nat).
Proof.
  apply (C3_load_once_before_async_results jskey_eq_dec jskey_is_nan default_config snap1).
  apply (run_events_reachable jskey_eq_dec jskey_is_nan default_config snap1 c3_schedule
           (async_start snap1)); [apply areach_start | vm_compute; reflexivity].
Defined.

(** ** NaN keys and the boundary of expiry *)

(** C2 (code bug): [accessOrder.indexOf(NaN)] is [-1], so [delete(NaN)]
    removes the entry of the Map but leaves [NaN] in [accessOrder]: after
    [set(NaN, 1); delete(NaN)] the Map is empty and the order is [[NaN]]. *)
Theorem C2_nan_key_breaks_bijection :
  exists st : @CacheState jskey Z,
    reachable jskey_eq_dec jskey_is_nan default_config (fresh MemoryAdapter) st /\
    keys st = [] /\ accessOrder st = [JNaN] /\ ~ bijection st.
Proof.
  destruct (run_ops jskey_eq_dec jskey_is_nan default_config (@fresh jskey Z MemoryAdapter)
              [OpSet JNaN 1 None 0; OpDelete JNaN 1]) as [st|] eqn:H;
    [|vm_compute in H; discriminate H].
  exists st. split; [eapply run_ops_reachable; [apply reach_here | exact H]|].
  vm_compute in H. injection H as <-.
  split; [reflexivity|]. split; [reflexivity|].
  intros [_ Hb]. exact (proj2 (Hb JNaN) (or_introl eq_refl)).
Qed.

(** C4 (code bug): an entry whose [expiresAt] equals the load instant is
    not expired by [isExpired], and a cache that holds it in memory still
    returns it at that instant; but the filter of [init()] keeps only
    [expiresAt > now], so a fresh cache loading it at that instant drops it. *)
Theorem C4_entry_expiring_at_load_instant_dropped :
  isExpired (mkEntry 7 (Some 1000) 0) 1000 = false /\
  match jset default_config (JStr 0) 7 (Some 1000) 0 (fresh MemoryAdapter) with
  | Some st => snd (jget default_config (JStr 0) 1000 st) = Some 7
  | None => False
  end /\
  snd (jget default_config (JStr 0) 1000
         (fresh (SnapshotAdapter (Some [(JStr 0, mkEntry 7 (Some 1000) 0)])))) = None.
Proof. vm_compute. repeat split. Qed.

(** C6 (code bug): [get(NaN)] on an expired entry deletes the Map entry
    and reports not found, but [NaN] stays in [accessOrder]. *)
Theorem C6_expired_nan_get_leaves_order :
  match run_ops jskey_eq_dec jskey_is_nan default_config (@fresh jskey Z MemoryAdapter)
          [OpSet JNaN 1 (Some 100) 0] with
  | Some st =>
      snd (jget default_config JNaN 200 st) = None /\
      keys (fst (jget default_config JNaN 200 st)) = [] /\
      accessOrder (fst (jget default_config JNaN 200 st)) = [JNaN]
  | None => False
  end.
Proof. vm_compute. repeat split. Qed.

(** C7 (code bug): overwriting the key [NaN] appends it to [accessOrder]
    without removing its old position, so it is not moved to the
    most-recently-used end: with capacity 2, [set(NaN); set(a); set(NaN);
    set(b)] evicts [NaN], the key written last before [b], and keeps [a]. *)
Theorem C7_nan_overwrite_not_moved :
  match run_ops jskey_eq_dec jskey_is_nan (mkConfig 2 None false) (@fresh jskey Z MemoryAdapter)
          [OpSet JNaN 1 None 0; OpSet JNaN 2 None 1] with
  | Some st => keys st = [JNaN] /\ accessOrder st = [JNaN; JNaN]
  | None => False
  end /\
  match run_ops jskey_eq_dec jskey_is_nan (mkConfig 2 None false) (@fresh jskey Z MemoryAdapter)
          [OpSet JNaN 1 None 0; OpSet (JStr 0) 1 None 1; OpSet JNaN 2 None 2;
           OpSet (JStr 1) 3 None 3] with
  | Some st => keys st = [JStr 0; JStr 1]
  | None => False
  end.
Proof. vm_compute. repeat split. Qed.

(** ** Eviction order *)
Section Eviction.

Context {K V : Type}.
Context (K_eq_dec : forall x y : K, {x = y} + {x <> y}).
Context (is_nan : K -> bool).

Local Abbreviation CacheState := (@CacheState K V).
Local Abbreviation SET := (set K_eq_dec is_nan).
Local Abbreviation RUN := (run_sets K_eq_dec is_nan).

(** The hydrated state of a cache whose storage holds nothing. *)
Lemma init_empty_load now (ad : @adapter K V) :
  adapter_load K_eq_dec ad = [] ->
  init K_eq_dec now (fresh ad) = mkState [] [] true ad [CallLoad].
Proof. intros H. unfold init, hydrate. simpl. rewrite H. reflexivity. Qed.

Lemma set_fresh cfg k v ttl now (ad : @adapter K V) :
  adapter_load K_eq_dec ad = [] ->
  SET cfg k v ttl now (fresh ad) = SET cfg k v ttl now (mkState [] [] true ad [CallLoad]).
Proof.
  intros H. unfold set. rewrite (init_empty_load now ad H).
  rewrite (init_initialized K_eq_dec now (mkState [] [] true ad [CallLoad]) eq_refl).
  reflexivity.
Qed.

Lemma run_sets_cons cfg (st : CacheState) s ss :
  RUN cfg st (s :: ss) =
  match (let '(k, v, ttl, now) := s in SET cfg k v ttl now st) with
  | Some st1 => RUN cfg st1 ss
  | None => None
  end.
Proof.
  unfold run_sets. simpl. destruct s as [[[k v] ttl] now].
  destruct (SET cfg k v ttl now st); [reflexivity|].
  clear. induction ss as [|s ss IH]; simpl; [reflexivity|exact IH].
Qed.

Lemma run_sets_app cfg (st : CacheState) ss s :
  RUN cfg st (ss ++ [s]) =
  match RUN cfg st ss with
  | Some st1 => let '(k, v, ttl, now) := s in SET cfg k v ttl now st1
  | None => None
  end.
Proof. unfold run_sets. rewrite fold_left_app. reflexivity. Qed.

Lemma run_sets_fresh cfg (ad : @adapter K V) s ss :
  adapter_load K_eq_dec ad = [] ->
  RUN cfg (fresh ad) (s :: ss) = RUN cfg (mkState [] [] true ad [CallLoad]) (s :: ss).
Proof.
  intros H. rewrite !run_sets_cons. destruct s as [[[k v] ttl] now].
  rewrite (set_fresh cfg k v ttl now ad H). reflexivity.
Qed.

Lemma keys_map_delete_split (k : K) l1 l2 (m : @map_t K V) :
  map fst m = l1 ++ k :: l2 -> ~ In k l1 -> map fst (map_delete K_eq_dec k m) = l1 ++ l2.
Proof.
  revert m. induction l1 as [|x l1 IH]; intros m Hm Hn.
  - destruct m as [|[k' e'] m]; simpl in Hm; [discriminate|]. injection Hm as -> Hm.
    simpl. destruct (K_eq_dec k k) as [_|Hne]; [exact Hm|congruence].
  - destruct m as [|[k' e'] m]; simpl in Hm; [discriminate|]. injection Hm as -> Hm.
    simpl. destruct (K_eq_dec k x) as [->|Hne]; [exfalso; apply Hn; left; reflexivity|].
    simpl. f_equal. apply IH; [exact Hm|]. intros Hin; apply Hn; right; exact Hin.
Qed.

Lemma evict_while_stop cfg f (st : CacheState) :
  Z.of_nat (length (data st)) < maxSize cfg -> evict_while K_eq_dec cfg f st = Some st.
Proof.
  intros Hl. destruct f; simpl;
    (replace (Z.of_nat (length (data st)) >=? maxSize cfg) with false
      by (symmetry; rewrite Z.geb_leb; apply Z.leb_gt; exact Hl)); reflexivity.
Qed.

Lemma evict_while_step cfg f (st : CacheState) :
  maxSize cfg <= Z.of_nat (length (data st)) ->
  evict_while K_eq_dec cfg (S f) st = evict_while K_eq_dec cfg f (evictLRU K_eq_dec st).
Proof.
  intros Hl. simpl.
  replace (Z.of_nat (length (data st)) >=? maxSize cfg) with true
    by (symmetry; apply Z.geb_le; exact Hl).
  reflexivity.
Qed.

(** [set] of a new key while there is room: appended to the Map and to
    [accessOrder], nothing evicted. *)
Lemma set_new_room cfg k v ttl now (st : CacheState) :
  initialized st = true -> ~ In k (keys st) ->
  Z.of_nat (length (data st)) < maxSize cfg ->
  exists st', SET cfg k v ttl now st = Some st' /\
    keys st' = keys st ++ [k] /\ accessOrder st' = accessOrder st ++ [k] /\
    initialized st' = true.
Proof.
  intros Hi Hk Hl. unfold set. rewrite (init_initialized K_eq_dec now st Hi).
  assert (Hg : map_get K_eq_dec k (data st) = None) by (apply map_get_None_iff; exact Hk).
  unfold map_has. rewrite Hg.
  assert (He : forall f, evict_while K_eq_dec cfg f st = Some st).
  { intros f. destruct f; simpl;
      (replace (Z.of_nat (length (data st)) >=? maxSize cfg) with false
        by (symmetry; rewrite Z.geb_leb; apply Z.leb_gt; exact Hl)); reflexivity. }
  rewrite He. eexists. split; [reflexivity|].
  destruct (persist_fields cfg
     (with_data_order (map_set K_eq_dec k
        (mkEntry v (match match ttl with Some t => Some t | None => defaultTTL cfg end with
                    | Some t => Some (now + t) | None => None end) now) (data st))
        (accessOrder st ++ [k]) st)) as (Hd & Ho & Hi').
  unfold keys. rewrite Hd, Ho, Hi'. simpl. rewrite map_set_absent by exact Hg.
  rewrite map_app. auto.
Qed.

(** [set] of a new key when the cache is full: the head of [accessOrder]
    is evicted, then the key appended. *)
Lemma set_new_full cfg k v ttl now (st : CacheState) k0 l1 l2 ro :
  initialized st = true -> ~ In k (keys st) ->
  keys st = l1 ++ k0 :: l2 -> ~ In k0 l1 -> accessOrder st = k0 :: ro ->
  Z.of_nat (length (data st)) = maxSize cfg ->
  exists st', SET cfg k v ttl now st = Some st' /\
    keys st' = l1 ++ l2 ++ [k] /\ accessOrder st' = ro ++ [k] /\ initialized st' = true.
Proof.
  intros Hi Hk Hks Hn Ho Hl. unfold set. rewrite (init_initialized K_eq_dec now st Hi).
  assert (Hg : map_get K_eq_dec k (data st) = None) by (apply map_get_None_iff; exact Hk).
  unfold map_has. rewrite Hg. rewrite Ho. simpl length.
  set (st1 := with_data_order (map_delete K_eq_dec k0 (data st)) ro st).
  assert (Hk1 : map fst (data st1) = l1 ++ l2) by (apply keys_map_delete_split; assumption).
  assert (Hl1 : Z.of_nat (length (data st1)) < maxSize cfg).
  { rewrite <- (length_map fst), Hk1, <- Hl, <- (length_map fst (data st)).
    change (map fst (data st)) with (keys st). rewrite Hks, !length_app. simpl. lia. }
  assert (He : evict_while K_eq_dec cfg (S (S (length ro))) st = Some st1).
  { rewrite evict_while_step by lia. unfold evictLRU. rewrite Ho. fold st1.
    apply evict_while_stop. exact Hl1. }
  rewrite He. eexists. split; [reflexivity|].
  match goal with |- context [persist cfg ?x] =>
    destruct (persist_fields cfg x) as (Hd & Ho' & Hi') end.
  unfold keys. rewrite Hd, Ho', Hi'. cbn [data accessOrder initialized with_data_order].
  assert (Hg1 : map_get K_eq_dec k (data st1) = None).
  { apply map_get_None_iff. rewrite Hk1. intros Hin. apply Hk. rewrite Hks.
    apply in_app_or in Hin as [Hin|Hin]; apply in_or_app; [left|right; right]; exact Hin. }
  rewrite map_set_absent by exact Hg1. rewrite map_app, Hk1, <- app_assoc. auto.
Qed.

(** A run of [set]s of new keys that never exceeds the capacity. *)
Lemma run_sets_room cfg ss : forall (st : CacheState),
  initialized st = true -> accessOrder st = keys st ->
  NoDup (keys st ++ map set_key ss) ->
  Z.of_nat (length (keys st ++ map set_key ss)) <= maxSize cfg ->
  exists st', RUN cfg st ss = Some st' /\ keys st' = keys st ++ map set_key ss /\
    accessOrder st' = keys st' /\ initialized st' = true.
Proof.
  induction ss as [|[[[k v] ttl] now] ss IH]; intros st Hi Ho Hnd Hl.
  - exists st. rewrite app_nil_r. auto.
  - rewrite run_sets_cons. simpl in Hnd, Hl.
    destruct (NoDup_remove _ _ _ Hnd) as [_ Hnin].
    destruct (set_new_room cfg k v ttl now st Hi) as (st1 & Hs & Hk1 & Ho1 & Hi1).
    + intros Hin. apply Hnin, in_or_app. left. exact Hin.
    + unfold keys in Hl. rewrite length_app, length_map in Hl. simpl in Hl. lia.
    + rewrite Hs. destruct (IH st1 Hi1) as (st' & Hr & Hk' & Ho' & Hi').
      * rewrite Ho1, Hk1, Ho. reflexivity.
      * rewrite Hk1, <- app_assoc. exact Hnd.
      * rewrite Hk1, <- app_assoc. rewrite !length_app in Hl |- *. simpl in Hl |- *. lia.
      * exists st'. split; [exact Hr|]. split; [rewrite Hk', Hk1, <- app_assoc; reflexivity|]. split; [exact Ho'|exact Hi'].
Qed.

Lemma get_hit cfg k tg (st : CacheState) :
  initialized st = true -> is_nan k = false ->
  snd (get K_eq_dec is_nan cfg k tg st) <> None ->
  forall ro, accessOrder st = k :: ro ->
  keys (fst (get K_eq_dec is_nan cfg k tg st)) = keys st /\
  accessOrder (fst (get K_eq_dec is_nan cfg k tg st)) = ro ++ [k] /\
  initialized (fst (get K_eq_dec is_nan cfg k tg st)) = true /\
  length (data (fst (get K_eq_dec is_nan cfg k tg st))) = length (data st).
Proof.
  intros Hi Hn Hs ro Ho. unfold get in *. rewrite (init_initialized K_eq_dec tg st Hi) in *.
  destruct (map_get K_eq_dec k (data st)) as [e|]; [|contradiction].
  destruct (isExpired e tg); simpl in Hs |- *; [contradiction|].
  match goal with |- context [persist cfg ?x] =>
    destruct (persist_fields cfg x) as (Hd & Ho' & Hi') end.
  unfold keys. rewrite Hd, Ho', Hi'. simpl. rewrite keys_map_touch, length_map_touch.
  rewrite Ho. simpl. unfold strict_equals.
  destruct (K_eq_dec k k) as [_|Hne]; [|congruence]. rewrite Hn. simpl. auto.
Qed.

(** C5 (amended): from a cache whose storage holds nothing, with capacity
    [N >= 1], [N + 1] [set]s of distinct keys evict the first key and keep
    the others; and if between the [N]-th and the last [set] a [get] of
    the first key (a key other than NaN) returns a value, with [N >= 2],
    the second key is evicted instead and the first is kept. *)
Theorem C5_lru_eviction_order cfg (ad : @adapter K V) ss k v ttl now N :
  adapter_load K_eq_dec ad = [] ->
  maxSize cfg = Z.of_nat N -> (1 <= N)%nat -> length ss = N ->
  NoDup (map set_key ss ++ [k]) ->
  (exists st, RUN cfg (fresh ad) (ss ++ [(k, v, ttl, now)]) = Some st /\
     keys st = tl (map set_key ss) ++ [k]) /\
  (forall st k0 tg, RUN cfg (fresh ad) ss = Some st ->
     hd_error (map set_key ss) = Some k0 -> is_nan k0 = false -> (2 <= N)%nat ->
     snd (get K_eq_dec is_nan cfg k0 tg st) <> None ->
     exists st', SET cfg k v ttl now (fst (get K_eq_dec is_nan cfg k0 tg st)) = Some st' /\
       keys st' = k0 :: skipn 2 (map set_key ss) ++ [k]).
Proof.
  intros Hload Hm HN Hlen Hnd.
  destruct ss as [|s0 ss']; [simpl in Hlen; lia|].
  set (st0 := mkState [] [] true ad [CallLoad] : CacheState).
  assert (Hpre : exists st1, RUN cfg (fresh ad) (s0 :: ss') = Some st1 /\
             keys st1 = map set_key (s0 :: ss') /\ accessOrder st1 = keys st1 /\
             initialized st1 = true).
  { rewrite (run_sets_fresh cfg ad s0 ss' Hload).
    apply (run_sets_room cfg (s0 :: ss') st0); [reflexivity|reflexivity| |].
    - simpl. apply NoDup_remove in Hnd as [Hnd _]. rewrite app_nil_r in Hnd. exact Hnd.
    - simpl. rewrite length_map, Hm. simpl in Hlen. lia. }
  destruct Hpre as (st1 & Hr1 & Hk1 & Ho1 & Hi1).
  assert (Hl1 : Z.of_nat (length (data st1)) = maxSize cfg).
  { rewrite <- (length_map fst). change (map fst (data st1)) with (keys st1).
    rewrite Hk1, length_map, Hlen, Hm. reflexivity. }
  assert (Hkn : ~ In k (keys st1)).
  { rewrite Hk1. intros Hin. apply NoDup_remove in Hnd as [_ Hnin].
    apply Hnin. rewrite app_nil_r. exact Hin. }
  split.
  - rewrite run_sets_app, Hr1.
    destruct (set_new_full cfg k v ttl now st1 (set_key s0) [] (map set_key ss')
                (map set_key ss') Hi1 Hkn)
      as (st' & Hs & Hk' & _).
    + rewrite Hk1. reflexivity.
    + intros [].
    + rewrite Ho1, Hk1. reflexivity.
    + exact Hl1.
    + exists st'. split; [exact Hs|]. rewrite Hk'. reflexivity.
  - intros st k0 tg Hr Hhd Hn H2 Hget.
    rewrite Hr1 in Hr. injection Hr as <-. simpl in Hhd. injection Hhd as Hk0.
    destruct ss' as [|s1 ss'']; [simpl in Hlen; lia|].
    destruct (get_hit cfg k0 tg st1 Hi1 Hn Hget (set_key s1 :: map set_key ss''))
      as (Hk2 & Ho2 & Hi2 & Hl2).
    { rewrite Ho1, Hk1, <- Hk0. reflexivity. }
    apply NoDup_remove in Hnd as [Hnd' Hnin]. rewrite app_nil_r in Hnd'.
    simpl in Hnd'. apply NoDup_cons_iff in Hnd' as [Hn01 _].
    destruct (set_new_full cfg k v ttl now (fst (get K_eq_dec is_nan cfg k0 tg st1))
                (set_key s1) [k0] (map set_key ss'') (map set_key ss'' ++ [k0]) Hi2)
      as (st' & Hs & Hk' & _).
    + rewrite Hk2. exact Hkn.
    + rewrite Hk2, Hk1, <- Hk0. reflexivity.
    + intros [Hx|[]]. apply Hn01. rewrite Hk0, Hx. left. reflexivity.
    + rewrite Ho2. reflexivity.
    + rewrite Hl2. exact Hl1.
    + exists st'. split; [exact Hs|]. rewrite Hk'. reflexivity.
Qed.

End Eviction.

(** C5: with capacity 2, [set(a, 1, ttl 5)] at 0, [set(b, 2)] at 1, [get(a)]
    at 10 (expired, so deleted) and [set(c, 3)] at 11: nothing is evicted
    and the second key [b] stays. *)
Lemma C5_expired_first_key_frees_room :
  match run_ops jskey_eq_dec jskey_is_nan (mkConfig 2 None false) (@fresh jskey Z MemoryAdapter)
          [OpSet (JStr 0) 1 (Some 5) 0; OpSet (JStr 1) 2 None 1; OpGet (JStr 0) 10;
           OpSet (JStr 2) 3 None 11] with
  | Some st => keys st = [JStr 1; JStr 2]
  | None => False
  end.
Proof. vm_compute. reflexivity. Qed.

Lemma C5_witness :
  exists st, run_sets jskey_eq_dec jskey_is_nan cfg3 (@fresh jskey Z MemoryAdapter)
               (c5_sets ++ [(JStr 3, 4, None, 4)]) = Some st /\
             keys st = [JStr 1; JStr 2; JStr 3].
Proof.
  destruct (C5_lru_eviction_order jskey_eq_dec jskey_is_nan cfg3 MemoryAdapter c5_sets
              (JStr 3) 4 None 4 3) as [H _].
  - reflexivity.
  - reflexivity.
  - lia.
  - reflexivity.
  - vm_compute. repeat constructor; simpl; intuition discriminate.
  - exact H.
Defined.

(** ** Round trip through a persisting adapter *)
Section RoundTrip.

Context {K V : Type}.
Context (K_eq_dec : forall x y : K, {x = y} + {x <> y}).
Context (is_nan : K -> bool).

Local Abbreviation CacheState := (@CacheState K V).
Local Abbreviation map_get := (map_get K_eq_dec).

Lemma map_get_filter (f : K * CacheEntry V -> bool) k (m : @map_t K V) :
  NoDup (map fst m) ->
  map_get k (filter f m) =
  match map_get k m with Some e => if f (k, e) then Some e else None | None => None end.
Proof.
  induction m as [|[k' e'] m IH]; simpl; intros Hnd; [reflexivity|].
  apply NoDup_cons_iff in Hnd as [Hnin Hnd'].
  destruct (f (k', e')) eqn:Hf; simpl.
  - destruct (K_eq_dec k k') as [->|Hne]; [rewrite Hf; reflexivity|apply IH, Hnd'].
  - destruct (K_eq_dec k k') as [->|Hne]; [|apply IH, Hnd'].
    rewrite Hf, IH by exact Hnd'.
    replace (map_get k' m) with (@None (CacheEntry V)); [reflexivity|].
    symmetry. apply map_get_None_iff. exact Hnin.
Qed.

(** The answer of [get] only depends on the hydrated Map. *)
Lemma get_answer cfg k t (st : CacheState) :
  snd (get K_eq_dec is_nan cfg k t st) =
  match map_get k (data (init K_eq_dec t st)) with
  | Some e => if isExpired e t then None else Some (value e)
  | None => None
  end.
Proof.
  unfold get. destruct (map_get k (data (init K_eq_dec t st))) as [e|]; [|reflexivity].
  destruct (isExpired e t); reflexivity.
Qed.

Lemma init_storage now (st : CacheState) : storage (init K_eq_dec now st) = storage st.
Proof.
  unfold init, hydrate. destruct (initialized st); [reflexivity|].
  destruct (hydrate_loop _ _ _ _ _); reflexivity.
Qed.

Lemma json_entries_exact json (l : list (K * CacheEntry V)) :
  (forall ke, json ke = Some ke) -> json_entries json l = Some l.
Proof.
  intros Hj. induction l as [|ke l IH]; simpl; [reflexivity|]. rewrite Hj, IH. reflexivity.
Qed.

(** After a [set] with [persistOnChange], over a medium that takes the
    write and for pairs that JSON gives back unchanged, the adapter holds
    the Map. *)
Lemma set_saves cfg k v ttl now (st st' : CacheState) json md s :
  persistOnChange cfg = true -> inv is_nan st -> storage st = PersistedAdapter json md s ->
  on_write md = WriteOk -> (forall ke, json ke = Some ke) ->
  set K_eq_dec is_nan cfg k v ttl now st = Some st' ->
  storage st' = PersistedAdapter json md (Some (data st')).
Proof.
  intros Hp Hinv Hs Hw Hj H. destruct (inv_init K_eq_dec is_nan now st Hinv) as [[Hwf _] _].
  pose proof (init_storage now st) as Hs1. rewrite Hs in Hs1.
  unfold set in H. destruct (map_has K_eq_dec k _).
  - injection H as <-. unfold persist. rewrite Hp. simpl. rewrite Hs1. simpl.
    rewrite (json_entries_exact json _ Hj), Hw. reflexivity.
  - destruct (evict_while K_eq_dec cfg _ _) as [st2|] eqn:He; [|discriminate].
    destruct (evict_while_spec K_eq_dec is_nan cfg _ _ st2 Hwf He) as (_ & _ & _ & Hs2 & _).
    injection H as <-. unfold persist. rewrite Hp. simpl. rewrite Hs2, Hs1. simpl.
    rewrite (json_entries_exact json _ Hj), Hw. reflexivity.
Qed.

Lemma run_sets_saves cfg json md s0 ss : forall (st st' : CacheState),
  persistOnChange cfg = true -> on_write md = WriteOk -> (forall ke, json ke = Some ke) ->
  inv is_nan st ->
  (st = fresh (PersistedAdapter json md s0) \/
   (initialized st = true /\ storage st = PersistedAdapter json md (Some (data st)))) ->
  run_sets K_eq_dec is_nan cfg st ss = Some st' ->
  inv is_nan st' /\
  (st' = fresh (PersistedAdapter json md s0) \/
   (initialized st' = true /\ storage st' = PersistedAdapter json md (Some (data st')))).
Proof.
  induction ss as [|[[[k v] ttl] now] ss IH]; intros st st' Hp Hw Hj Hinv Hst H.
  - unfold run_sets in H. simpl in H. injection H as <-. auto.
  - rewrite run_sets_cons in H.
    destruct (set K_eq_dec is_nan cfg k v ttl now st) as [st1|] eqn:Hs; [|discriminate].
    apply (IH st1); [exact Hp | exact Hw | exact Hj | eapply inv_set; eassumption | | exact H].
    right. split.
    + unfold set in Hs. destruct (inv_init K_eq_dec is_nan now st Hinv) as [[Hwf _] Hi].
      destruct (map_has K_eq_dec k _).
      * injection Hs as <-. rewrite (proj2 (proj2 (persist_fields _ _))). exact Hi.
      * destruct (evict_while K_eq_dec cfg _ _) as [st2|] eqn:He; [|discriminate].
        destruct (evict_while_spec K_eq_dec is_nan cfg _ _ st2 Hwf He) as (_ & _ & Hi2 & _).
        injection Hs as <-. rewrite (proj2 (proj2 (persist_fields _ _))). simpl. congruence.
    + destruct Hst as [->|[_ Hs0]].
      * eapply set_saves; [exact Hp|exact Hinv|reflexivity|exact Hw|exact Hj|exact Hs].
      * eapply set_saves; [exact Hp|exact Hinv|exact Hs0|exact Hw|exact Hj|exact Hs].
Qed.

(** C9 (amended): after any sequence of [set]s through a cache with
    [persistOnChange] over a persisted adapter whose medium takes every
    write, and for keys and values that JSON gives back unchanged, a fresh
    cache over the same adapter answers [get(k)] at time [t] as the first
    cache does at [t], for every key whose entry does not expire exactly
    at [t]; the configuration of the second cache does not matter. *)
Theorem C9_round_trip cfg cfg' json md s0 ss (st : CacheState) k t :
  persistOnChange cfg = true ->
  on_write md = WriteOk ->
  (forall ke, json ke = Some ke) ->
  run_sets K_eq_dec is_nan cfg (fresh (PersistedAdapter json md s0)) ss = Some st ->
  (forall e, map_get k (data st) = Some e -> expiresAt e <> Some t) ->
  snd (get K_eq_dec is_nan cfg' k t (fresh (storage st))) =
  snd (get K_eq_dec is_nan cfg k t st).
Proof.
  intros Hp Hw Hj Hr Hk.
  assert (Hinv0 : inv is_nan (fresh (PersistedAdapter json md s0) : CacheState)).
  { split; [repeat split; simpl; try constructor; tauto | intros _; split; reflexivity]. }
  destruct (run_sets_saves cfg json md s0 ss _ st Hp Hw Hj Hinv0 (or_introl eq_refl) Hr)
    as [Hinv [->|[Hi Hs]]].
  { rewrite !get_answer. reflexivity. }
  rewrite !get_answer. rewrite Hs.
  rewrite (init_initialized K_eq_dec t st Hi).
  destruct Hinv as [[Hnd _] _].
  rewrite (init_fresh_spec K_eq_dec t (fresh (PersistedAdapter json md (Some (data st)))) eq_refl
             eq_refl eq_refl).
  simpl. rewrite (map_of_entries_id K_eq_dec _ Hnd), (map_get_filter _ k _ Hnd).
  destruct (map_get k (data st)) as [e|] eqn:Hg; [|reflexivity].
  specialize (Hk e eq_refl).
  assert (Hle : live_at t e = negb (isExpired e t)).
  { unfold live_at, isExpired. destruct (expiresAt e) as [x|]; [|reflexivity].
    assert (x <> t) by congruence.
    destruct (x >? t) eqn:H1, (t >? x) eqn:H2; try reflexivity;
      rewrite ?Z.gtb_ltb, ?Z.ltb_lt, ?Z.ltb_ge in *; lia. }
  cbv beta. simpl snd. rewrite Hle.
  destruct (isExpired e t) eqn:Hx; simpl; rewrite ?Hx; reflexivity.
Qed.

End RoundTrip.

(** C9: the default [MemoryAdapter] keeps nothing: a fresh cache over it
    does not find the key the first cache has just written. *)
Lemma C9_memory_adapter_forgets :
  match jset default_config (JStr 0) 1 None 0 (fresh MemoryAdapter) with
  | Some st => snd (jget default_config (JStr 0) 1 st) = Some 1 /\
               snd (jget default_config (JStr 0) 1 (fresh (storage st))) = None
  | None => False
  end.
Proof. vm_compute. split; reflexivity. Qed.

Lemma C9_witness :
  snd (jget default_config (JStr 1) 50 (fresh (storage c9_state))) =
  snd (jget default_config (JStr 1) 50 c9_state).
Proof.
  apply (C9_round_trip jskey_eq_dec jskey_is_nan default_config default_config
           (fun ke => Some ke) (mkMedium WriteOk true) None
           [(JStr 0, 1, None, 0); (JStr 1, 2, Some 100, 1)]).
  - reflexivity.
  - reflexivity.
  - reflexivity.
  - vm_compute. reflexivity.
  - intros e He. vm_compute in He. injection He as <-. discriminate.
Defined.

(** ** Further properties of the code *)
Section Further.

Context {K V : Type}.
Context (K_eq_dec : forall x y : K, {x = y} + {x <> y}).
Context (is_nan : K -> bool).

Local Abbreviation CacheState := (@CacheState K V).

Lemma nonnan_id (l : list K) :
  (forall k, In k l -> is_nan k = false) -> nonnan is_nan l = l.
Proof.
  induction l as [|x l IH]; simpl; intros H; [reflexivity|].
  rewrite (H x (or_introl eq_refl)). simpl. f_equal. apply IH. intros k Hk; apply H; right; exact Hk.
Qed.

(** What [init()] leaves in a cache that has not loaded: the snapshot's
    entries with no [expiresAt] or one after the load instant, in snapshot
    order, and [accessOrder] holding exactly their keys, sorted by
    [lastAccessed] (stably). *)
Theorem hydration_postcondition now (ad : @adapter K V) :
  data (init K_eq_dec now (fresh ad)) =
    filter (fun ke => live_at now (snd ke)) (adapter_load K_eq_dec ad) /\
  Permutation (accessOrder (init K_eq_dec now (fresh ad))) (keys (init K_eq_dec now (fresh ad))) /\
  Sorted (fun a b => la_of K_eq_dec (data (init K_eq_dec now (fresh ad))) a <=
                     la_of K_eq_dec (data (init K_eq_dec now (fresh ad))) b)
         (accessOrder (init K_eq_dec now (fresh ad))).
Proof.
  rewrite (init_fresh_spec K_eq_dec now (fresh ad) eq_refl eq_refl eq_refl). simpl.
  split; [reflexivity|]. split; [apply sort_by_perm|apply sort_by_sorted].
Qed.

(** While no NaN key has entered [accessOrder], the Map and [accessOrder]
    hold the same keys, each once in [accessOrder]. *)
Theorem bijection_without_nan cfg ad (st : CacheState) :
  reachable K_eq_dec is_nan cfg (fresh ad) st ->
  (forall k, In k (accessOrder st) -> is_nan k = false) ->
  bijection st.
Proof.
  intros Hr Hn. destruct (reachable_inv K_eq_dec is_nan cfg ad st Hr) as [(H1 & H2 & H3 & H4) _].
  split.
  - rewrite <- (nonnan_id _ Hn). exact H4.
  - intros k. split; [apply H2|]. intros Hk. apply H3; [exact Hk|apply Hn, Hk].
Qed.

End Further.

(** The scenario of the spec: capacity 3; [set a=1, b=2, c=3]; [get(a)];
    [set d=4]; then [get(a)] is 1, [get(b)] not found, [get(c)] 3 and
    [get(d)] 4. *)
Theorem lru_scenario :
  match run_ops jskey_eq_dec jskey_is_nan cfg3 (@fresh jskey Z MemoryAdapter)
          [OpSet (JStr 0) 1 None 0; OpSet (JStr 1) 2 None 1; OpSet (JStr 2) 3 None 2;
           OpGet (JStr 0) 3; OpSet (JStr 3) 4 None 4] with
  | Some st =>
      map (fun k => snd (jget cfg3 k 5 st)) [JStr 0; JStr 1; JStr 2; JStr 3] =
      [Some 1; None; Some 3; Some 4]
  | None => False
  end.
Proof. vm_compute. reflexivity. Qed.

Lemma bijection_without_nan_witness :
  bijection (fst (jget default_config (JStr 0) 1
                   (fst (jget default_config (JStr 1) 0 (@fresh jskey Z snap2))))).
Proof.
  apply (bijection_without_nan jskey_eq_dec jskey_is_nan default_config snap2).
  - apply reach_step with (st := fst (jget default_config (JStr 1) 0 (@fresh jskey Z snap2)))
      (o := OpGet (JStr 0) 1) (r := RValue (Some 10)).
    + apply reach_step with (st := @fresh jskey Z snap2) (o := OpGet (JStr 1) 0)
        (r := RValue (Some 11)); [apply reach_here | vm_compute; reflexivity].
    + vm_compute. reflexivity.
  - intros k Hk. vm_compute in Hk. destruct Hk as [<-|[<-|[]]]; reflexivity.
Defined.

(** ** Lookup, update and removal *)
Section Operations.

Context {K V : Type}.
Context (K_eq_dec : forall x y : K, {x = y} + {x <> y}).
Context (is_nan : K -> bool).

Local Abbreviation CacheState := (@CacheState K V).
Local Abbreviation map_t := (@map_t K V).
Local Abbreviation map_get := (map_get K_eq_dec).
Local Abbreviation INIT := (init K_eq_dec).
Local Abbreviation SET := (set K_eq_dec is_nan).
Local Abbreviation GET := (get K_eq_dec is_nan).

Lemma initialized_init now (st : CacheState) : initialized (INIT now st) = true.
Proof.
  unfold init. destruct (initialized st) eqn:Hi; [exact Hi|].
  apply hydrate_fields.
Qed.

Lemma map_get_app k (m1 m2 : map_t) :
  map_get k (m1 ++ m2) = match map_get k m1 with Some e => Some e | None => map_get k m2 end.
Proof.
  induction m1 as [|[k' e'] m1 IH]; simpl; [reflexivity|].
  destruct (K_eq_dec k k'); [reflexivity|exact IH].
Qed.

(** Entries that [evict_while] keeps are unchanged. *)
Lemma evict_while_frame cfg f (st st' : CacheState) :
  wf_state is_nan st -> evict_while K_eq_dec cfg f st = Some st' ->
  forall k, map_get k (data st') = map_get k (data st) \/ map_get k (data st') = None.
Proof.
  revert st. induction f as [|f IH]; intros st Hwf H k; simpl in H;
    destruct (Z.of_nat (length (data st)) >=? maxSize cfg).
  - discriminate.
  - injection H as <-. left. reflexivity.
  - destruct (IH _ (wf_evict K_eq_dec is_nan st Hwf) H k) as [Hk|Hk]; [|right; exact Hk].
    rewrite Hk. unfold evictLRU. destruct (accessOrder st) as [|lru rest]; [left; reflexivity|].
    simpl. rewrite (map_get_delete K_eq_dec lru k _ (proj1 Hwf)).
    destruct (K_eq_dec k lru); [right|left]; reflexivity.
  - injection H as <-. left. reflexivity.
Qed.

Lemma evict_while_calls cfg f (st st' : CacheState) :
  evict_while K_eq_dec cfg f st = Some st' ->
  calls st' = calls st /\ storage st' = storage st /\ initialized st' = initialized st.
Proof.
  revert st. induction f as [|f IH]; intros st H; simpl in H;
    destruct (Z.of_nat (length (data st)) >=? maxSize cfg).
  - discriminate.
  - injection H as <-. auto.
  - destruct (IH _ H) as (Hc & Hs & Hi).
    destruct (evictLRU_fields K_eq_dec st) as (Hi' & Hs' & Hc' & _).
    repeat split; congruence.
  - injection H as <-. auto.
Qed.

(** With no room, the loop never ends. *)
Lemma evict_while_nonpositive cfg f (st : CacheState) :
  maxSize cfg <= 0 -> evict_while K_eq_dec cfg f st = None.
Proof.
  revert st. induction f as [|f IH]; intros st Hm; simpl;
    (replace (Z.of_nat (length (data st)) >=? maxSize cfg) with true
       by (symmetry; apply Z.geb_le; lia)); [reflexivity|apply IH, Hm].
Qed.

Lemma index_of_In (k : K) l :
  is_nan k = false -> In k l -> exists i, index_of K_eq_dec is_nan k l = Some i.
Proof.
  intros Hn Hin. destruct (index_of K_eq_dec is_nan k l) as [i|] eqn:Hi; [eauto|].
  destruct (index_of_None K_eq_dec is_nan k l Hi) as [H|H]; congruence.
Qed.

Lemma map_of_entries_get_gen k (l : list (K * CacheEntry V)) : forall (acc : map_t),
  map_get k (fold_left (fun m ke => map_set K_eq_dec (fst ke) (snd ke) m) l acc) =
  match map_get k (rev l) with Some e => Some e | None => map_get k acc end.
Proof.
  induction l as [|[k1 e1] l IH]; intros acc; simpl; [reflexivity|].
  rewrite IH, map_get_app, map_get_set. simpl.
  destruct (map_get k (rev l)); [reflexivity|].
  destruct (K_eq_dec k k1); reflexivity.
Qed.

Lemma In_keys_iff_get k (m : map_t) : In k (map fst m) <-> map_get k m <> None.
Proof.
  split.
  - intros Hin H. apply map_get_None_iff in H. contradiction.
  - intros H. destruct (in_dec K_eq_dec k (map fst m)) as [Hin|Hn]; [exact Hin|].
    exfalso. apply H, map_get_None_iff, Hn.
Qed.

End Operations.

(** ** Properties of the public operations *)
Section Operations2.

Context {K V : Type}.
Context (K_eq_dec : forall x y : K, {x = y} + {x <> y}).
Context (is_nan : K -> bool).

Local Abbreviation CacheState := (@CacheState K V).
Local Abbreviation map_t := (@map_t K V).
Local Abbreviation map_get := (map_get K_eq_dec).
Local Abbreviation INIT := (init K_eq_dec).
Local Abbreviation SET := (set K_eq_dec is_nan).
Local Abbreviation GET := (get K_eq_dec is_nan).
Local Abbreviation HAS := (has K_eq_dec is_nan).
Local Abbreviation DELETE := (delete K_eq_dec is_nan).

Lemma init_calls now (st : CacheState) :
  calls (INIT now st) = calls st ++ (if initialized st then [] else [CallLoad]).
Proof.
  unfold init. destruct (initialized st); [symmetry; apply app_nil_r|].
  rewrite (proj2 (hydrate_fields K_eq_dec _ _ _)). reflexivity.
Qed.

Lemma init_idem now (st : CacheState) : INIT now (INIT now st) = INIT now st.
Proof. apply init_initialized, initialized_init. Qed.

Lemma data_delete_body cfg k (st : CacheState) :
  data (delete_body K_eq_dec is_nan cfg k st) = map_delete K_eq_dec k (data st).
Proof. unfold delete_body. rewrite (proj1 (persist_fields _ _)). reflexivity. Qed.

Lemma persist_off cfg (st : CacheState) : persistOnChange cfg = false -> persist cfg st = st.
Proof. unfold persist. intros ->. reflexivity. Qed.

Lemma persist_on cfg (st : CacheState) : persistOnChange cfg = true -> persist cfg st = save st.
Proof. unfold persist. intros ->. reflexivity. Qed.

(** The entry that [set] stores. *)
Lemma set_result cfg k v ttl now (st st' : CacheState) :
  SET cfg k v ttl now st = Some st' ->
  initialized st' = true /\
  map_get k (data st') =
    Some (mkEntry v (match (match ttl with Some t => Some t | None => defaultTTL cfg end) with
                     | Some t => Some (now + t) | None => None end) now).
Proof.
  intros H. unfold set in H. cbv zeta in H.
  pose proof (initialized_init K_eq_dec now st) as Hi.
  remember (INIT now st) as st1 eqn:E. clear E.
  unfold map_has in H. destruct (map_get k (data st1)) as [e0|] eqn:Hk.
  - injection H as <-. rewrite (proj1 (persist_fields _ _)), (proj2 (proj2 (persist_fields _ _))).
    unfold touch, with_data_order. cbn [data initialized]. split; [exact Hi|].
    rewrite map_get_touch, map_get_set. destruct (K_eq_dec k k) as [_|]; [reflexivity|congruence].
  - destruct (evict_while K_eq_dec cfg _ st1) as [st2|] eqn:He; [|discriminate].
    injection H as <-. destruct (evict_while_calls K_eq_dec cfg _ _ _ He) as (_ & _ & Hi2).
    rewrite (proj1 (persist_fields _ _)), (proj2 (proj2 (persist_fields _ _))).
    unfold with_data_order. cbn [data initialized]. split; [congruence|].
    rewrite map_get_set. destruct (K_eq_dec k k) as [_|]; [reflexivity|congruence].
Qed.

(** A value written by [set] is read back by [get] until its expiry, and
    not after it: [get] answers [value] while [now <= expiresAt]. *)
Theorem set_then_get cfg k v ttl now t (st st' : CacheState) :
  SET cfg k v ttl now st = Some st' ->
  snd (GET cfg k t st') =
  match (match ttl with Some d => Some d | None => defaultTTL cfg end) with
  | Some d => if t >? now + d then None else Some v
  | None => Some v
  end.
Proof.
  intros H. destruct (set_result cfg k v ttl now st st' H) as [Hi Hk].
  unfold get. cbv zeta. rewrite init_initialized by exact Hi. rewrite Hk.
  unfold isExpired. cbn [expiresAt value].
  destruct (match ttl with Some d => Some d | None => defaultTTL cfg end) as [d|]; [|reflexivity].
  destruct (t >? now + d); reflexivity.
Qed.

(** [set] leaves the entries of the other keys as [init] left them,
    except that adding a new key may evict some of them. *)
Theorem set_other_keys cfg k v ttl now (st st' : CacheState) k' :
  inv is_nan st -> SET cfg k v ttl now st = Some st' -> k' <> k ->
  map_get k' (data st') = map_get k' (data (INIT now st)) \/
  (map_get k (data (INIT now st)) = None /\ map_get k' (data st') = None).
Proof.
  intros Hinv H Hne. destruct (inv_init K_eq_dec is_nan now st Hinv) as [[Hwf _] _].
  unfold set in H. cbv zeta in H.
  remember (INIT now st) as st1 eqn:E. clear E.
  unfold map_has in H. destruct (map_get k (data st1)) as [e0|] eqn:Hk.
  - injection H as <-. rewrite (proj1 (persist_fields _ _)). left.
    unfold touch, with_data_order. cbn [data].
    rewrite map_get_touch, map_get_set. destruct (K_eq_dec k' k); [contradiction|reflexivity].
  - destruct (evict_while K_eq_dec cfg _ st1) as [st2|] eqn:He; [|discriminate].
    injection H as <-. rewrite (proj1 (persist_fields _ _)).
    unfold with_data_order. cbn [data]. rewrite map_get_set.
    destruct (K_eq_dec k' k); [contradiction|].
    destruct (evict_while_frame K_eq_dec is_nan cfg _ _ _ Hwf He k') as [Hf|Hf];
      [left; exact Hf|right; split; [reflexivity|exact Hf]].
Qed.

(** A new key, with room in the cache: nothing is evicted, the entry is
    appended to the Map and the key to [accessOrder]. *)
Theorem set_new_key_room cfg k v ttl now (st : CacheState) :
  map_get k (data (INIT now st)) = None ->
  Z.of_nat (size (INIT now st)) < maxSize cfg ->
  SET cfg k v ttl now st =
  Some (persist cfg
          (with_data_order
             (data (INIT now st) ++
              [(k, mkEntry v (match (match ttl with Some t => Some t | None => defaultTTL cfg end) with
                              | Some t => Some (now + t) | None => None end) now)])
             (accessOrder (INIT now st) ++ [k]) (INIT now st))).
Proof.
  intros Hk Hroom. unfold set. cbv zeta. unfold map_has. rewrite Hk.
  rewrite (evict_while_stop K_eq_dec cfg _ _ Hroom). rewrite map_set_absent by exact Hk.
  reflexivity.
Qed.

(** A new key, in a full cache whose least recently used key [k0] is in
    the Map: [k0] alone is evicted and the new key goes last. *)
Theorem set_new_key_full cfg k v ttl now (st : CacheState) k0 ro :
  map_get k (data (INIT now st)) = None ->
  Z.of_nat (size (INIT now st)) = maxSize cfg ->
  accessOrder (INIT now st) = k0 :: ro -> In k0 (keys (INIT now st)) ->
  SET cfg k v ttl now st =
  Some (persist cfg
          (with_data_order
             (map_delete K_eq_dec k0 (data (INIT now st)) ++
              [(k, mkEntry v (match (match ttl with Some t => Some t | None => defaultTTL cfg end) with
                              | Some t => Some (now + t) | None => None end) now)])
             (ro ++ [k]) (INIT now st))).
Proof.
  intros Hk Hfull Ho Hk0. unfold set. cbv zeta. unfold map_has. rewrite Hk.
  unfold size, keys in *. remember (INIT now st) as st1 eqn:E. clear E.
  rewrite (evict_while_step K_eq_dec cfg _ st1) by lia.
  assert (Hev : evictLRU K_eq_dec st1 = with_data_order (map_delete K_eq_dec k0 (data st1)) ro st1)
    by (unfold evictLRU; rewrite Ho; reflexivity).
  rewrite Hev.
  assert (Hlen : S (length (map_delete K_eq_dec k0 (data st1))) = length (data st1))
    by (apply length_map_delete_present, In_keys_iff_get, Hk0).
  rewrite (evict_while_stop K_eq_dec cfg _ (with_data_order _ ro st1))
    by (cbn [data with_data_order]; lia).
  cbn [data accessOrder with_data_order].
  rewrite map_set_absent.
  - reflexivity.
  - apply map_get_None_iff. intros Hin. apply keys_map_delete_incl in Hin.
    apply (proj1 (In_keys_iff_get K_eq_dec k (data st1)) Hin), Hk.
Qed.

(** After [delete(key)], [get(key)] finds nothing, and the other keys keep
    the entries that [init] left them. *)
Theorem delete_then_get cfg k now t (st : CacheState) :
  inv is_nan st ->
  snd (GET cfg k t (DELETE cfg k now st)) = None /\
  (forall k', k' <> k -> map_get k' (data (DELETE cfg k now st)) = map_get k' (data (INIT now st))).
Proof.
  intros Hinv. destruct (inv_init K_eq_dec is_nan now st Hinv) as [[Hwf _] Hi].
  assert (Hd : data (DELETE cfg k now st) = map_delete K_eq_dec k (data (INIT now st)))
    by (unfold delete; apply data_delete_body).
  split.
  - unfold get. cbv zeta.
    rewrite init_initialized
      by (unfold delete; rewrite initialized_delete_body; exact Hi).
    rewrite Hd, (map_get_delete K_eq_dec k k _ (proj1 Hwf)).
    destruct (K_eq_dec k k); [reflexivity|congruence].
  - intros k' Hne. rewrite Hd, (map_get_delete K_eq_dec k k' _ (proj1 Hwf)).
    destruct (K_eq_dec k' k); [contradiction|reflexivity].
Qed.

(** [has(key)] answers as [get(key)] would, but on a hit it leaves the
    cache as [init] left it: no recency update and no save. On a miss
    both leave the same state. *)
Theorem has_agrees_with_get cfg k t (st : CacheState) :
  snd (HAS cfg k t st) = match snd (GET cfg k t st) with Some _ => true | None => false end /\
  (snd (HAS cfg k t st) = true -> fst (HAS cfg k t st) = INIT t st) /\
  (snd (HAS cfg k t st) = false -> fst (HAS cfg k t st) = fst (GET cfg k t st)).
Proof.
  unfold has, get. cbv zeta.
  destruct (map_get k (data (INIT t st))) as [e|]; [destruct (isExpired e t)|];
    cbn [fst snd]; repeat split; intros H; try discriminate; reflexivity.
Qed.

(** A hit of [get] on a key that is not NaN: the key moves from its place
    in [accessOrder] to the end, its entry gets [lastAccessed = now], and
    the Map keeps its keys, in order, and the other entries. *)
Theorem get_hit_moves_to_back cfg k t v (st : CacheState) :
  inv is_nan st -> is_nan k = false -> snd (GET cfg k t st) = Some v ->
  exists l1 l2,
    accessOrder (INIT t st) = l1 ++ k :: l2 /\
    accessOrder (fst (GET cfg k t st)) = l1 ++ l2 ++ [k] /\
    keys (fst (GET cfg k t st)) = keys (INIT t st) /\
    map_get k (data (fst (GET cfg k t st))) =
      option_map (fun e => mkEntry (value e) (expiresAt e) t) (map_get k (data (INIT t st))) /\
    (forall k', k' <> k -> map_get k' (data (fst (GET cfg k t st))) = map_get k' (data (INIT t st))).
Proof.
  intros Hinv Hn Hv. destruct (inv_init K_eq_dec is_nan t st Hinv) as [[Hwf _] _].
  unfold get in *. cbv zeta in *.
  remember (INIT t st) as st1 eqn:E. clear E.
  destruct (map_get k (data st1)) as [e|] eqn:Hk; [|discriminate].
  destruct (isExpired e t); [discriminate|]. cbn [fst snd] in *.
  assert (Hin : In k (accessOrder st1)).
  { apply (proj1 (proj2 Hwf)), (proj2 (In_keys_iff_get K_eq_dec k _)). congruence. }
  destruct (index_of_In K_eq_dec is_nan k _ Hn Hin) as [i Hi].
  destruct (index_of_Some K_eq_dec is_nan k _ i Hi) as (l1 & l2 & Ho & Hr & _ & _ & _).
  exists l1, l2. unfold keys.
  rewrite (proj1 (persist_fields _ _)), (proj1 (proj2 (persist_fields _ _))).
  unfold touch, with_data_order. cbn [data accessOrder]. rewrite Hi, Hr, <- app_assoc.
  repeat split.
  - exact Ho.
  - apply keys_map_touch.
  - rewrite map_get_touch, Hk. destruct (K_eq_dec k k); [reflexivity|congruence].
  - intros k' Hne. rewrite map_get_touch. destruct (K_eq_dec k' k); [contradiction|reflexivity].
Qed.

(** A [get] of an expired entry answers [undefined] and removes the key
    from the Map; the other entries stay. *)
Theorem get_expired_removes cfg k t (st : CacheState) e :
  inv is_nan st -> map_get k (data (INIT t st)) = Some e -> isExpired e t = true ->
  snd (GET cfg k t st) = None /\ ~ In k (keys (fst (GET cfg k t st))) /\
  (forall k', k' <> k -> map_get k' (data (fst (GET cfg k t st))) = map_get k' (data (INIT t st))).
Proof.
  intros Hinv Hk Hx. destruct (inv_init K_eq_dec is_nan t st Hinv) as [[Hwf _] Hi].
  unfold get. cbv zeta. rewrite Hk, Hx. cbn [fst snd].
  unfold delete, keys. rewrite (init_initialized K_eq_dec t _ Hi), data_delete_body.
  split; [reflexivity|split].
  - intros Hin. apply (In_keys_map_delete K_eq_dec k _ k (proj1 Hwf)) in Hin.
    destruct Hin as [_ Hne]. apply Hne; reflexivity.
  - intros k' Hne. rewrite (map_get_delete K_eq_dec k k' _ (proj1 Hwf)).
    destruct (K_eq_dec k' k); [contradiction|reflexivity].
Qed.


(** With a capacity of zero or less, [set] of a key that is not in the
    Map never returns: its eviction loop does not end. *)
Theorem set_without_capacity cfg k v ttl now (st : CacheState) :
  maxSize cfg <= 0 -> map_get k (data (INIT now st)) = None -> SET cfg k v ttl now st = None.
Proof.
  intros Hm Hk. unfold set. cbv zeta. unfold map_has. rewrite Hk.
  rewrite (evict_while_nonpositive K_eq_dec cfg _ _ Hm). reflexivity.
Qed.

Lemma index_of_nan k (l : list K) : is_nan k = true -> index_of K_eq_dec is_nan k l = None.
Proof.
  intros Hn. induction l as [|x l IH]; simpl; [reflexivity|].
  unfold strict_equals. rewrite IH. destruct (K_eq_dec k x); rewrite ?Hn; reflexivity.
Qed.

(** [set] of a key already in the Map evicts nothing, even in a full
    cache: the Map keeps its keys, in order. A key that is not NaN moves
    to the end of [accessOrder]; a NaN key, which [indexOf] never finds,
    is appended once more. *)
Theorem set_existing_key cfg k v ttl now (st : CacheState) :
  inv is_nan st -> map_get k (data (INIT now st)) <> None ->
  exists st', SET cfg k v ttl now st = Some st' /\ keys st' = keys (INIT now st) /\
    (is_nan k = false -> exists l1 l2,
       accessOrder (INIT now st) = l1 ++ k :: l2 /\ accessOrder st' = l1 ++ l2 ++ [k]) /\
    (is_nan k = true -> accessOrder st' = accessOrder (INIT now st) ++ [k]).
Proof.
  intros Hinv Hk. destruct (inv_init K_eq_dec is_nan now st Hinv) as [[Hwf _] _].
  unfold set. cbv zeta. unfold map_has.
  remember (INIT now st) as st1 eqn:E. clear E.
  destruct (map_get k (data st1)) as [e0|] eqn:Hk'; [|congruence].
  eexists. split; [reflexivity|]. unfold keys.
  rewrite (proj1 (persist_fields _ _)), (proj1 (proj2 (persist_fields _ _))).
  unfold touch, with_data_order. cbn [data accessOrder].
  split; [|split].
  - rewrite keys_map_touch. apply keys_map_set_present. congruence.
  - intros Hn.
    assert (Hin : In k (accessOrder st1)).
    { apply (proj1 (proj2 Hwf)), (proj2 (In_keys_iff_get K_eq_dec k _)). congruence. }
    destruct (index_of_In K_eq_dec is_nan k _ Hn Hin) as [i Hi].
    destruct (index_of_Some K_eq_dec is_nan k _ i Hi) as (l1 & l2 & Ho & Hr & _ & _ & _).
    exists l1, l2. rewrite Hi, Hr, <- app_assoc. split; [exact Ho|reflexivity].
  - intros Hn. rewrite (index_of_nan k _ Hn). reflexivity.
Qed.

(** With [persistOnChange], every completed [set] ends by calling the
    adapter's [save] with the resulting Map: the storage is then what
    that [save] makes of the storage the cache was created with. *)
Theorem set_saves_result cfg k v ttl now (st st' : CacheState) :
  persistOnChange cfg = true -> SET cfg k v ttl now st = Some st' ->
  storage st' = adapter_save (data st') (storage st) /\
  exists l, calls st' = calls st ++ l ++ [CallSave (data st')].
Proof.
  intros Hp H. unfold set in H. cbv zeta in H.
  pose proof (init_storage K_eq_dec now st) as Hs. pose proof (init_calls now st) as Hc.
  remember (INIT now st) as st1 eqn:E. clear E.
  unfold map_has in H. destruct (map_get k (data st1)) as [e0|] eqn:Hk.
  - injection H as <-. rewrite persist_on by exact Hp.
    unfold save, touch, with_data_order. cbn [data storage calls].
    rewrite Hs, Hc, <- app_assoc. split; [reflexivity|eexists; reflexivity].
  - destruct (evict_while K_eq_dec cfg _ st1) as [st2|] eqn:He; [|discriminate].
    injection H as <-. destruct (evict_while_calls K_eq_dec cfg _ _ _ He) as (Hc2 & Hs2 & _).
    rewrite persist_on by exact Hp.
    unfold save, with_data_order. cbn [data storage calls].
    rewrite Hs2, Hc2, Hs, Hc, <- app_assoc. split; [reflexivity|eexists; reflexivity].
Qed.

(** With [persistOnChange], a [get] that finds a live entry saves the
    Map: a read writes to storage. *)
Theorem get_hit_saves cfg k t v (st : CacheState) :
  persistOnChange cfg = true -> snd (GET cfg k t st) = Some v ->
  storage (fst (GET cfg k t st)) = adapter_save (data (fst (GET cfg k t st))) (storage st) /\
  calls (fst (GET cfg k t st)) = calls (INIT t st) ++ [CallSave (data (fst (GET cfg k t st)))].
Proof.
  intros Hp Hv. pose proof (init_storage K_eq_dec t st) as Hs.
  unfold get in *. cbv zeta in *.
  remember (INIT t st) as st1 eqn:E. clear E.
  destruct (map_get k (data st1)) as [e|]; [|discriminate].
  destruct (isExpired e t); [discriminate|]. cbn [fst snd] in *.
  rewrite persist_on by exact Hp. unfold save, touch, with_data_order. cbn [data storage calls].
  rewrite Hs. split; reflexivity.
Qed.

Lemma init_no_save now (st : CacheState) :
  exists l, calls (INIT now st) = calls st ++ l /\ Forall (fun c => forall d, c <> @CallSave K V d) l.
Proof.
  exists (if initialized st then [] else [CallLoad]). split; [apply init_calls|].
  destruct (initialized st); repeat constructor. discriminate.
Qed.

Lemma delete_off cfg k now (st : CacheState) :
  persistOnChange cfg = false -> initialized st = true ->
  calls (DELETE cfg k now st) = calls st /\ storage (DELETE cfg k now st) = storage st.
Proof.
  intros Hp Hi. unfold delete, delete_body. rewrite init_initialized by exact Hi.
  rewrite persist_off by exact Hp. split; reflexivity.
Qed.

(** With [persistOnChange] off, no operation but [save()] writes to the
    storage: the adapter calls they add are loads and [clear]s, and only
    [clear()] changes the storage. *)
Theorem no_save_without_persist cfg (st st' : CacheState) o r :
  persistOnChange cfg = false -> o <> OpSave -> step K_eq_dec is_nan cfg st o = Some (st', r) ->
  exists l, calls st' = calls st ++ l /\ Forall (fun c => forall d, c <> CallSave d) l /\
    ((forall now, o <> OpClear now) -> storage st' = storage st).
Proof.
  intros Hp Hno H.
  assert (Hgen : forall now, calls st' = calls (INIT now st) /\ storage st' = storage (INIT now st) ->
            exists l, calls st' = calls st ++ l /\ Forall (fun c => forall d, c <> CallSave d) l /\
              ((forall now, o <> OpClear now) -> storage st' = storage st)).
  { intros now [Hc Hs]. destruct (init_no_save now st) as (l & Hl & Hf).
    exists l. rewrite Hc, Hl. split; [reflexivity|split; [exact Hf|]].
    intros _. rewrite Hs. apply init_storage. }
  destruct o as [k now|k v ttl now|k now|k now|now| | |]; cbn [step] in H.
  - destruct (GET cfg k now st) as [s b] eqn:Hg. injection H as <- _.
    apply (Hgen now). unfold get in Hg. cbv zeta in Hg.
    pose proof (initialized_init K_eq_dec now st) as Hi.
    remember (INIT now st) as st1 eqn:E. clear E.
    destruct (map_get k (data st1)) as [e|]; [destruct (isExpired e now)|];
      injection Hg as <- _.
    + apply (delete_off cfg k now st1 Hp Hi).
    + rewrite persist_off by exact Hp. split; reflexivity.
    + split; reflexivity.
  - destruct (SET cfg k v ttl now st) as [s|] eqn:Hs; [|discriminate]. injection H as <- _.
    apply (Hgen now). unfold set in Hs. cbv zeta in Hs.
    remember (INIT now st) as st1 eqn:E. clear E.
    unfold map_has in Hs. destruct (map_get k (data st1)) as [e0|].
    + injection Hs as <-. rewrite persist_off by exact Hp. split; reflexivity.
    + destruct (evict_while K_eq_dec cfg _ st1) as [st2|] eqn:He; [|discriminate].
      injection Hs as <-. rewrite persist_off by exact Hp.
      destruct (evict_while_calls K_eq_dec cfg _ _ _ He) as (Hc2 & Hs2 & _).
      split; [exact Hc2|exact Hs2].
  - injection H as <- _. apply (Hgen now).
    unfold delete, delete_body. rewrite persist_off by exact Hp. split; reflexivity.
  - destruct (HAS cfg k now st) as [s b] eqn:Hg. injection H as <- _.
    apply (Hgen now). unfold has in Hg. cbv zeta in Hg.
    pose proof (initialized_init K_eq_dec now st) as Hi.
    remember (INIT now st) as st1 eqn:E. clear E.
    destruct (map_get k (data st1)) as [e|]; [destruct (isExpired e now)|];
      injection Hg as <- _.
    + apply (delete_off cfg k now st1 Hp Hi).
    + split; reflexivity.
    + split; reflexivity.
  - injection H as <- _. destruct (init_no_save now st) as (l & Hl & Hf).
    exists (l ++ [CallClear]). unfold clear. cbn [calls].
    rewrite Hl, <- app_assoc. split; [reflexivity|split].
    + apply Forall_app. split; [exact Hf|]. repeat constructor. discriminate.
    + intros Hc. exfalso. apply (Hc now). reflexivity.
  - injection H as <- _. exists []. rewrite app_nil_r. repeat constructor.
  - injection H as <- _. exists []. rewrite app_nil_r. repeat constructor.
  - exfalso. apply Hno. reflexivity.
Qed.

(** [new Map(parsed)] over a stored entry list with repeated keys: the
    last entry of a key wins, each key is kept once, and the Map has
    exactly the keys of the list. *)
Theorem load_last_entry_wins json md (l : list (K * CacheEntry V)) k :
  map_get k (adapter_load K_eq_dec (PersistedAdapter json md (Some l))) = map_get k (rev l) /\
  NoDup (map fst (adapter_load K_eq_dec (PersistedAdapter json md (Some l)))) /\
  (In k (map fst (adapter_load K_eq_dec (PersistedAdapter json md (Some l)))) <-> In k (map fst l)).
Proof.
  assert (Hg : map_get k (adapter_load K_eq_dec (PersistedAdapter json md (Some l))) = map_get k (rev l)).
  { cbn [adapter_load]. unfold map_of_entries. rewrite map_of_entries_get_gen.
    destruct (map_get k (rev l)); reflexivity. }
  split; [exact Hg|split; [apply map_of_entries_NoDup|]].
  rewrite In_keys_iff_get, Hg, <- In_keys_iff_get, map_rev, <- in_rev. reflexivity.
Qed.

Lemma map_get_In k e (m : map_t) : map_get k m = Some e -> In (k, e) m.
Proof.
  induction m as [|[k' e'] m IH]; simpl; [discriminate|].
  destruct (K_eq_dec k k') as [->|_]; [intros H; injection H as ->; left; reflexivity|].
  intros H; right; apply IH, H.
Qed.

Lemma json_entries_None json ke (l : list (K * CacheEntry V)) :
  In ke l -> json ke = None -> json_entries json l = None.
Proof.
  induction l as [|ke' l IH]; simpl; [tauto|]. intros [->|Hin] Hj.
  - rewrite Hj. reflexivity.
  - rewrite (IH Hin Hj). destruct (json ke'); reflexivity.
Qed.

(** The storage after [set]: untouched, or the adapter's save of the
    resulting Map. *)
Lemma set_storage cfg k v ttl now (st st' : CacheState) :
  SET cfg k v ttl now st = Some st' ->
  storage st' = storage st \/ storage st' = adapter_save (data st') (storage st).
Proof.
  intros H. unfold set in H. cbv zeta in H.
  pose proof (init_storage K_eq_dec now st) as Hs.
  remember (INIT now st) as st1 eqn:E. clear E.
  unfold persist in H. destruct (persistOnChange cfg).
  - right. unfold map_has in H. destruct (map_get k (data st1)).
    + injection H as <-. unfold save, touch, with_data_order. cbn [data storage].
      rewrite Hs. reflexivity.
    + destruct (evict_while K_eq_dec cfg _ st1) as [st2|] eqn:He; [|discriminate].
      injection H as <-. destruct (evict_while_calls K_eq_dec cfg _ _ _ He) as (_ & Hs2 & _).
      unfold save, with_data_order. cbn [data storage]. rewrite Hs2, Hs. reflexivity.
  - left. unfold map_has in H. destruct (map_get k (data st1)).
    + injection H as <-. unfold touch, with_data_order. cbn [storage]. exact Hs.
    + destruct (evict_while K_eq_dec cfg _ st1) as [st2|] eqn:He; [|discriminate].
      injection H as <-. destruct (evict_while_calls K_eq_dec cfg _ _ _ He) as (_ & Hs2 & _).
      unfold with_data_order. cbn [storage]. congruence.
Qed.

(** A [set] whose new entry JSON cannot serialise (a BigInt value):
    [JSON.stringify] throws inside the adapter's [save], which swallows
    it, so the storage keeps what it held before, while the cache holds
    the new entry. *)
Theorem set_unserialisable_not_saved cfg k v ttl now (st st' : CacheState) json md s :
  storage st = PersistedAdapter json md s ->
  json (k, mkEntry v (match (match ttl with Some t => Some t | None => defaultTTL cfg end) with
                      | Some t => Some (now + t) | None => None end) now) = None ->
  SET cfg k v ttl now st = Some st' ->
  storage st' = storage st /\
  map_get k (data st') =
    Some (mkEntry v (match (match ttl with Some t => Some t | None => defaultTTL cfg end) with
                     | Some t => Some (now + t) | None => None end) now).
Proof.
  intros Hs Hj H. destruct (set_result cfg k v ttl now st st' H) as [_ Hk].
  split; [|exact Hk].
  destruct (set_storage cfg k v ttl now st st' H) as [Hst|Hst]; [exact Hst|].
  rewrite Hst, Hs. cbn [adapter_save].
  rewrite (json_entries_None json _ _ (map_get_In _ _ _ Hk) Hj). reflexivity.
Qed.

End Operations2.

Lemma set_then_get_witness :
  snd (jget cfg1 (JStr 5) 20
         (match jset cfg1 (JStr 5) 7 (Some 10) 0 (fresh snap2) with
          | Some s => s | None => fresh snap2 end)) =
  (if 20 >? 0 + 10 then None else Some 7).
Proof.
  apply (set_then_get jskey_eq_dec jskey_is_nan cfg1 (JStr 5) 7 (Some 10) 0 20 (fresh snap2)).
  vm_compute. reflexivity.
Defined.

Lemma set_other_keys_witness :
  let st' := match jset default_config (JStr 5) 7 None 0 (fresh snap2) with
             | Some s => s | None => fresh snap2 end in
  map_get jskey_eq_dec (JStr 0) (data st') =
    map_get jskey_eq_dec (JStr 0) (data (init jskey_eq_dec 0 (fresh snap2))) \/
  (map_get jskey_eq_dec (JStr 5) (data (init jskey_eq_dec 0 (fresh snap2))) = None /\
   map_get jskey_eq_dec (JStr 0) (data st') = None).
Proof.
  apply (set_other_keys jskey_eq_dec jskey_is_nan default_config (JStr 5) 7 None 0 (fresh snap2)).
  - apply (reachable_inv jskey_eq_dec jskey_is_nan default_config snap2). apply reach_here.
  - vm_compute. reflexivity.
  - discriminate.
Defined.

Lemma set_new_key_room_witness :
  jset default_config (JStr 5) 7 None 0 (fresh snap2) =
  Some (persist default_config
          (with_data_order
             (data (init jskey_eq_dec 0 (fresh snap2)) ++ [(JStr 5, mkEntry 7 None 0)])
             (accessOrder (init jskey_eq_dec 0 (fresh snap2)) ++ [JStr 5])
             (init jskey_eq_dec 0 (fresh snap2)))).
Proof.
  apply (set_new_key_room jskey_eq_dec jskey_is_nan default_config (JStr 5) 7 None 0 (fresh snap2)).
  - vm_compute. reflexivity.
  - vm_compute. reflexivity.
Defined.

Lemma set_new_key_full_witness :
  jset cfg1 (JStr 5) 7 None 0 (fresh snap1) =
  Some (persist cfg1
          (with_data_order
             (map_delete jskey_eq_dec (JStr 0) (data (init jskey_eq_dec 0 (fresh snap1))) ++
              [(JStr 5, mkEntry 7 None 0)])
             ([] ++ [JStr 5]) (init jskey_eq_dec 0 (fresh snap1)))).
Proof.
  apply (set_new_key_full jskey_eq_dec jskey_is_nan cfg1 (JStr 5) 7 None 0 (fresh snap1) (JStr 0) []).
  - vm_compute. reflexivity.
  - vm_compute. reflexivity.
  - vm_compute. reflexivity.
  - vm_compute. left. reflexivity.
Defined.

Lemma delete_then_get_witness :
  snd (jget cfg1 (JStr 0) 1 (jdelete cfg1 (JStr 0) 0 (fresh snap2))) = None /\
  (forall k', k' <> JStr 0 ->
     map_get jskey_eq_dec k' (data (jdelete cfg1 (JStr 0) 0 (fresh snap2))) =
     map_get jskey_eq_dec k' (data (init jskey_eq_dec 0 (fresh snap2)))).
Proof.
  apply (delete_then_get jskey_eq_dec jskey_is_nan cfg1 (JStr 0) 0 1 (fresh snap2)).
  apply (reachable_inv jskey_eq_dec jskey_is_nan cfg1 snap2). apply reach_here.
Defined.

Lemma get_hit_moves_to_back_witness :
  exists l1 l2,
    accessOrder (init jskey_eq_dec 1 (fresh snap2)) = l1 ++ JStr 0 :: l2 /\
    accessOrder (fst (jget default_config (JStr 0) 1 (fresh snap2))) = l1 ++ l2 ++ [JStr 0] /\
    keys (fst (jget default_config (JStr 0) 1 (fresh snap2))) = keys (init jskey_eq_dec 1 (fresh snap2)) /\
    map_get jskey_eq_dec (JStr 0) (data (fst (jget default_config (JStr 0) 1 (fresh snap2)))) =
      option_map (fun e => mkEntry (value e) (expiresAt e) 1)
        (map_get jskey_eq_dec (JStr 0) (data (init jskey_eq_dec 1 (fresh snap2)))) /\
    (forall k', k' <> JStr 0 ->
       map_get jskey_eq_dec k' (data (fst (jget default_config (JStr 0) 1 (fresh snap2)))) =
       map_get jskey_eq_dec k' (data (init jskey_eq_dec 1 (fresh snap2)))).
Proof.
  apply (get_hit_moves_to_back jskey_eq_dec jskey_is_nan default_config (JStr 0) 1 10 (fresh snap2)).
  - apply (reachable_inv jskey_eq_dec jskey_is_nan default_config snap2). apply reach_here.
  - reflexivity.
  - vm_compute. reflexivity.
Defined.

Lemma get_expired_removes_witness :
  let st := match jset default_config (JStr 0) 1 (Some 5) 0 (fresh MemoryAdapter) with
            | Some s => s | None => fresh MemoryAdapter end in
  snd (jget default_config (JStr 0) 10 st) = None /\
  ~ In (JStr 0) (keys (fst (jget default_config (JStr 0) 10 st))) /\
  (forall k', k' <> JStr 0 ->
     map_get jskey_eq_dec k' (data (fst (jget default_config (JStr 0) 10 st))) =
     map_get jskey_eq_dec k' (data (init jskey_eq_dec 10 st))).
Proof.
  apply (get_expired_removes jskey_eq_dec jskey_is_nan default_config (JStr 0) 10 _ (mkEntry 1 (Some 5) 0)).
  - apply (inv_set jskey_eq_dec jskey_is_nan default_config (JStr 0) 1 (Some 5) 0
             (fresh MemoryAdapter)).
    + apply (reachable_inv jskey_eq_dec jskey_is_nan default_config MemoryAdapter). apply reach_here.
    + vm_compute. reflexivity.
  - vm_compute. reflexivity.
  - reflexivity.
Defined.

Lemma set_without_capacity_witness :
  jset (mkConfig 0 None true) (JStr 0) 1 None 0 (@fresh jskey Z MemoryAdapter) = None.
Proof.
  apply (set_without_capacity jskey_eq_dec jskey_is_nan (mkConfig 0 None true) (JStr 0) 1 None 0).
  - cbn. lia.
  - vm_compute. reflexivity.
Defined.

Lemma set_existing_key_witness :
  exists st', jset cfg1 (JStr 0) 5 None 0 (fresh snap2) = Some st' /\
    keys st' = keys (init jskey_eq_dec 0 (fresh snap2)) /\
    (jskey_is_nan (JStr 0) = false -> exists l1 l2,
       accessOrder (init jskey_eq_dec 0 (fresh snap2)) = l1 ++ JStr 0 :: l2 /\
       accessOrder st' = l1 ++ l2 ++ [JStr 0]) /\
    (jskey_is_nan (JStr 0) = true ->
       accessOrder st' = accessOrder (init jskey_eq_dec 0 (fresh snap2)) ++ [JStr 0]).
Proof.
  apply (set_existing_key jskey_eq_dec jskey_is_nan cfg1 (JStr 0) 5 None 0 (fresh snap2)).
  - apply (reachable_inv jskey_eq_dec jskey_is_nan cfg1 snap2). apply reach_here.
  - vm_compute. discriminate.
Defined.

Lemma set_saves_result_witness :
  let st' := match jset cfg1 (JStr 5) 7 None 0 (fresh snap2) with
             | Some s => s | None => fresh snap2 end in
  storage st' = adapter_save (data st') snap2 /\
  exists l, calls st' = calls (@fresh jskey Z snap2) ++ l ++ [CallSave (data st')].
Proof.
  apply (set_saves_result jskey_eq_dec jskey_is_nan cfg1 (JStr 5) 7 None 0 (fresh snap2)).
  - reflexivity.
  - vm_compute. reflexivity.
Defined.

Lemma get_hit_saves_witness :
  storage (fst (jget default_config (JStr 0) 1 (fresh snap2))) =
    adapter_save (data (fst (jget default_config (JStr 0) 1 (fresh snap2)))) snap2 /\
  calls (fst (jget default_config (JStr 0) 1 (fresh snap2))) =
    calls (init jskey_eq_dec 1 (fresh snap2)) ++
    [CallSave (data (fst (jget default_config (JStr 0) 1 (fresh snap2))))].
Proof.
  apply (get_hit_saves jskey_eq_dec jskey_is_nan default_config (JStr 0) 1 10 (fresh snap2)).
  - reflexivity.
  - vm_compute. reflexivity.
Defined.

Lemma no_save_without_persist_witness :
  exists l, calls (fst (jget cfg3 (JStr 0) 1 (fresh snap2))) = calls (@fresh jskey Z snap2) ++ l /\
    Forall (fun c => forall d, c <> CallSave d) l /\
    ((forall now, @OpGet jskey Z (JStr 0) 1 <> OpClear now) ->
     storage (fst (jget cfg3 (JStr 0) 1 (fresh snap2))) = storage (@fresh jskey Z snap2)).
Proof.
  apply (no_save_without_persist jskey_eq_dec jskey_is_nan cfg3 (fresh snap2) _
           (OpGet (JStr 0) 1) (RValue (Some 10))).
  - reflexivity.
  - discriminate.
  - vm_compute. reflexivity.
Defined.

Lemma set_unserialisable_not_saved_witness :
  let st := fst (jget default_config (JStr 0) 0 (fresh file_a1)) in
  let st' := match jset default_config (JStr 1) (VBigInt 5) None 1 st with
             | Some s => s | None => st end in
  storage st' = storage st /\
  map_get jskey_eq_dec (JStr 1) (data st') = Some (mkEntry (VBigInt 5) None 1).
Proof.
  apply (set_unserialisable_not_saved jskey_eq_dec jskey_is_nan default_config (JStr 1)
           (VBigInt 5) None 1 _ _ jsval_json (mkMedium WriteOk true)
           (Some [(JStr 0, mkEntry (VNum 1) None 0)])).
  - vm_compute. reflexivity.
  - reflexivity.
  - vm_compute. reflexivity.
Defined.
